(** * Metric trees over 32-bit keys: BK-tree, VP-tree and linear scan

    A shallow embedding of [tree.c].  Keys ([bkey_t], [uint32_t]) and
    distances ([unsigned]) are integers in [Z] with the 32-bit wrap-around
    written out.  Arrays are lists; the [size_t] quantities of the source
    (array lengths, histogram counts, offsets) count elements of an
    existing array and are natural numbers.  Memory management ([xmalloc],
    [free]), the statistics counters, argument parsing and the timing and
    printing of the benchmark driver are left out. *)

From Stdlib Require Import ZArith Lia Bool.
From stdpp Require Import base tactics option list numbers sorting.

Local Open Scope Z_scope.
Set Warnings "-register-all".

(** ** Machine words *)

(** [typedef uint32_t bkey_t;] *)
Abbreviation bkey_t := Z.

(** [enum { MAX_DISTANCE = 32 }] *)
Definition MAX_DISTANCE : nat := 32.

Definition wB : Z := 2 ^ 32.

(** The values a [bkey_t] can hold. *)
Definition bkey_ok (x : Z) : Prop := 0 <= x < wB.

(** Addition of two [uint32_t]/[unsigned] values. *)
Definition add32 (a b : Z) : Z := (a + b) mod wB.

(** ** The metric *)

(** [distance], the variant compiled by default ([HAVE_POPCNT] is 0). *)
Definition distance (x y : bkey_t) : Z :=
  let d := Z.lxor x y in
  let d := add32 (Z.land d 0x55555555) (Z.land (Z.shiftr d 1) 0x55555555) in
  let d := add32 (Z.land d 0x33333333) (Z.land (Z.shiftr d 2) 0x33333333) in
  let d := Z.land (add32 d (Z.shiftr d 4)) 0x0f0f0f0f in
  let d := add32 d (Z.shiftr d 8) in
  let d := add32 d (Z.shiftr d 16) in
  Z.land d 63.

(** Number of set bits among the [n] low bit positions of [d]. *)
Fixpoint popcount_upto (n : nat) (d : Z) : Z :=
  match n with
  | O => 0
  | S n' => popcount_upto n' d + Z.b2z (Z.testbit d (Z.of_nat n'))
  end.

(** [__builtin_popcount] on a 32-bit word; [distance] under [HAVE_POPCNT]. *)
Definition popcount (d : Z) : Z := popcount_upto 32 d.

Definition distance_popcnt (x y : bkey_t) : Z := popcount (Z.lxor x y).

(** Number of bit positions, among the 32, where [x] and [y] differ. *)
Definition hamming (x y : bkey_t) : Z :=
  Z.of_nat (length (List.filter
    (fun i => xorb (Z.testbit x (Z.of_nat i)) (Z.testbit y (Z.of_nat i)))
    (seq 0 32))).

(** The three mask-and-add rounds of [distance] on a 16-bit half word. *)
Definition swar16 (a : Z) : Z :=
  let a := Z.land a 0x5555 + Z.land (Z.shiftr a 1) 0x5555 in
  let a := Z.land a 0x3333 + Z.land (Z.shiftr a 2) 0x3333 in
  Z.land (a + Z.shiftr a 4) 0x0f0f.

(** [all_below n p P]: [P] holds of every [p * 2^n + x], [0 <= x < 2^n]. *)
Fixpoint all_below (n : nat) (p : Z) (P : Z -> bool) : bool :=
  match n with
  | O => P p
  | S n' => all_below n' (2 * p) P && all_below n' (2 * p + 1) P
  end.

(** *** Bit-level facts *)

Lemma all_below_sound n : forall p P,
  all_below n p P = true ->
  forall x, 0 <= x < 2 ^ Z.of_nat n -> P (p * 2 ^ Z.of_nat n + x) = true.
Proof.
  induction n as [|n IH]; intros p P H x Hx.
  - change (2 ^ Z.of_nat 0) with 1 in *.
    replace (p * 1 + x) with p by lia. exact H.
  - simpl in H. apply andb_prop in H as [H0 H1].
    rewrite Nat2Z.inj_succ, Z.pow_succ_r in * by lia.
    destruct (Z_lt_le_dec x (2 ^ Z.of_nat n)) as [Hlt|Hge].
    + replace (p * (2 * 2 ^ Z.of_nat n) + x)
        with (2 * p * 2 ^ Z.of_nat n + x) by lia.
      apply IH; [exact H0 | lia].
    + replace (p * (2 * 2 ^ Z.of_nat n) + x)
        with ((2 * p + 1) * 2 ^ Z.of_nat n + (x - 2 ^ Z.of_nat n)) by lia.
      apply IH; [exact H1 | lia].
Qed.

Lemma testbit_high x k i :
  0 <= x < 2 ^ k -> 0 <= k <= i -> Z.testbit x i = false.
Proof.
  intros Hx Hk. rewrite <- (Z.mod_small x (2 ^ k)) by lia.
  apply Z.mod_pow2_bits_high. lia.
Qed.

(** Bits of a number given as a low part and a high part. *)
Lemma testbit_join a b k i :
  0 <= k -> 0 <= a < 2 ^ k -> 0 <= i ->
  Z.testbit (a + 2 ^ k * b) i =
  if i <? k then Z.testbit a i else Z.testbit b (i - k).
Proof.
  intros Hk Ha Hi.
  assert (Hmod : (a + 2 ^ k * b) mod 2 ^ k = a).
  { symmetry. apply Z.mod_unique with (q := b); lia. }
  assert (Hdiv : (a + 2 ^ k * b) / 2 ^ k = b).
  { symmetry. apply Z.div_unique with (r := a); lia. }
  destruct (Z.ltb_spec i k).
  - rewrite <- (Z.mod_pow2_bits_low (a + 2 ^ k * b) k i) by lia.
    now rewrite Hmod.
  - transitivity (Z.testbit ((a + 2 ^ k * b) / 2 ^ k) (i - k));
      [|now rewrite Hdiv].
    rewrite Z.div_pow2_bits by lia. f_equal. lia.
Qed.

Lemma lt_pow2_of_bits x k :
  0 <= x -> 0 <= k -> (forall i, k <= i -> Z.testbit x i = false) ->
  x < 2 ^ k.
Proof.
  intros Hx Hk Hb.
  destruct (Z_lt_le_dec x (2 ^ k)) as [|Hge]; [assumption|exfalso].
  assert (Hpos : 0 < x) by (pose proof (Z.pow_pos_nonneg 2 k); lia).
  pose proof (Z.bit_log2 x Hpos) as Hl.
  rewrite Hb in Hl; [discriminate|].
  apply Z.log2_le_pow2; lia.
Qed.

Lemma land_bound x m k :
  0 <= k -> 0 <= m < 2 ^ k -> 0 <= Z.land x m < 2 ^ k.
Proof.
  intros Hk Hm. split.
  - apply Z.land_nonneg. lia.
  - apply lt_pow2_of_bits; [apply Z.land_nonneg; lia | lia |].
    intros i Hi. rewrite Z.land_spec, (testbit_high m k i) by lia.
    apply andb_false_r.
Qed.

(** *** The mask-and-add rounds act on the two half words separately *)

Definition round1 (a : Z) : Z := Z.land a 0x5555 + Z.land (Z.shiftr a 1) 0x5555.
Definition round2 (a : Z) : Z := Z.land a 0x3333 + Z.land (Z.shiftr a 2) 0x3333.
Definition round3 (a : Z) : Z := Z.land (a + Z.shiftr a 4) 0x0f0f.

Lemma swar16_rounds a : swar16 a = round3 (round2 (round1 a)).
Proof. reflexivity. Qed.

Lemma land_halves a b m :
  0 <= a < 2 ^ 16 -> 0 <= b -> 0 <= m < 2 ^ 16 ->
  Z.land (a + 2 ^ 16 * b) (m + 2 ^ 16 * m) = Z.land a m + 2 ^ 16 * Z.land b m.
Proof.
  intros Ha Hb Hm. apply Z.bits_inj'. intros i Hi.
  pose proof (land_bound a m 16 ltac:(lia) Hm).
  rewrite Z.land_spec, !testbit_join by lia.
  destruct (i <? 16); now rewrite Z.land_spec.
Qed.

Lemma land_shiftr_halves s a b m :
  0 <= s <= 16 -> 0 <= a < 2 ^ 16 -> 0 <= b -> 0 <= m < 2 ^ (16 - s) ->
  Z.land (Z.shiftr (a + 2 ^ 16 * b) s) (m + 2 ^ 16 * m) =
  Z.land (Z.shiftr a s) m + 2 ^ 16 * Z.land (Z.shiftr b s) m.
Proof.
  intros Hs Ha Hb Hm.
  assert (Hm16 : 0 <= m < 2 ^ 16).
  { split; [lia|]. apply Z.lt_le_trans with (2 ^ (16 - s)); [lia|].
    apply Z.pow_le_mono_r; lia. }
  pose proof (land_bound (Z.shiftr a s) m 16 ltac:(lia) Hm16).
  apply Z.bits_inj'. intros i Hi.
  rewrite Z.land_spec, Z.shiftr_spec, !testbit_join by lia.
  destruct (Z.ltb_spec i 16) as [Hi16|Hi16].
  - rewrite Z.land_spec, Z.shiftr_spec by lia.
    destruct (Z.ltb_spec (i + s) 16) as [His|His]; [reflexivity|].
    rewrite (testbit_high m (16 - s) i) by lia. now rewrite !andb_false_r.
  - rewrite Z.land_spec, Z.shiftr_spec by lia.
    destruct (Z.ltb_spec (i + s) 16) as [His|His]; [lia|].
    do 2 f_equal. lia.
Qed.

Lemma land_low_mask x c m :
  0 <= x -> 0 <= m < 2 ^ 12 ->
  Z.land (x + 2 ^ 12 * c) m = Z.land x m.
Proof.
  intros Hx Hm. apply Z.bits_inj'. intros i Hi.
  rewrite !Z.land_spec.
  destruct (Z.ltb_spec i 12) as [Hlt|Hge].
  - f_equal.
    rewrite <- (Z.mod_pow2_bits_low (x + 2 ^ 12 * c) 12 i) by lia.
    rewrite <- (Z.mod_pow2_bits_low x 12 i) by lia.
    f_equal. rewrite Z.mul_comm. apply Z.mod_add. lia.
  - rewrite (testbit_high m 12 i) by lia. now rewrite !andb_false_r.
Qed.

(** Facts about every 16-bit half word, settled by running through them. *)
Definition swar16_check (a : Z) : bool :=
  let u := round2 (round1 a) in
  let s := swar16 a in
  (round1 a <? 2 ^ 16) && (u + Z.shiftr u 4 + 2 ^ 14 <? 2 ^ 16)
  && (u mod 16 <=? 4)
  && (s mod 256 + s / 256 =? popcount_upto 16 a)
  && (s mod 256 <=? 8) && (s / 256 <=? 8).

Lemma swar16_checked : all_below 16 0 swar16_check = true.
Proof. vm_compute. reflexivity. Qed.

Lemma swar16_facts a :
  0 <= a < 2 ^ 16 ->
  let u := round2 (round1 a) in
  let s := swar16 a in
  round1 a < 2 ^ 16 /\ u + Z.shiftr u 4 + 2 ^ 14 < 2 ^ 16 /\ u mod 16 <= 4 /\
  s mod 256 + s / 256 = popcount_upto 16 a /\ s mod 256 <= 8 /\ s / 256 <= 8.
Proof.
  intros Ha u s.
  pose proof (all_below_sound 16 0 swar16_check swar16_checked a Ha) as H.
  rewrite Z.mul_0_l, Z.add_0_l in H. unfold swar16_check in H.
  fold u s in H. rewrite !andb_true_iff in H.
  destruct H as [[[[[H1 H2] H3] H4] H5] H6].
  repeat split; lia.
Qed.

Lemma popcount_upto_add n m d :
  popcount_upto (n + m) d =
  popcount_upto n d + popcount_upto m (Z.shiftr d (Z.of_nat n)).
Proof.
  induction m as [|m IH].
  - rewrite Nat.add_0_r. simpl. lia.
  - rewrite Nat.add_succ_r. simpl. rewrite IH, Z.shiftr_spec by lia.
    rewrite Nat2Z.inj_add, (Z.add_comm (Z.of_nat m)). lia.
Qed.

Lemma popcount_upto_mod n d :
  popcount_upto n (d mod 2 ^ Z.of_nat n) = popcount_upto n d.
Proof.
  assert (H : forall k, (k <= n)%nat ->
    popcount_upto k (d mod 2 ^ Z.of_nat n) = popcount_upto k d).
  { induction k as [|k IH]; intros Hk; [reflexivity|].
    simpl. rewrite IH, Z.mod_pow2_bits_low by lia. reflexivity. }
  apply H. lia.
Qed.

Lemma popcount_halves d :
  popcount d = popcount_upto 16 (d mod 2 ^ 16) + popcount_upto 16 (d / 2 ^ 16).
Proof.
  unfold popcount. change 32%nat with (16 + 16)%nat.
  rewrite popcount_upto_add, Z.shiftr_div_pow2 by lia.
  now rewrite <- (popcount_upto_mod 16 d).
Qed.

Lemma popcount_upto_range n d : 0 <= popcount_upto n d <= Z.of_nat n.
Proof.
  induction n as [|n IH]; [simpl; lia|].
  cbn [popcount_upto]. destruct (Z.testbit d (Z.of_nat n)); simpl Z.b2z; lia.
Qed.

(** The rounds of [distance] on a word given by its half words. *)
Lemma distance_rounds lo hi :
  0 <= lo < 2 ^ 16 -> 0 <= hi < 2 ^ 16 ->
  let d := lo + 2 ^ 16 * hi in
  let d1 := add32 (Z.land d 0x55555555) (Z.land (Z.shiftr d 1) 0x55555555) in
  let d2 := add32 (Z.land d1 0x33333333) (Z.land (Z.shiftr d1 2) 0x33333333) in
  let d3 := Z.land (add32 d2 (Z.shiftr d2 4)) 0x0f0f0f0f in
  d3 = swar16 lo + 2 ^ 16 * swar16 hi.
Proof.
  intros Hlo Hhi d d1 d2 d3.
  destruct (swar16_facts lo Hlo) as (Hl1 & Hl2 & Hl3 & _).
  destruct (swar16_facts hi Hhi) as (Hh1 & Hh2 & Hh3 & _).
  assert (Hr1 : forall a, 0 <= round1 a).
  { intros a. unfold round1.
    pose proof (land_bound a 0x5555 16). pose proof (land_bound (Z.shiftr a 1) 0x5555 16). lia. }
  assert (Hr2 : forall a, 0 <= round2 a).
  { intros a. unfold round2.
    pose proof (land_bound a 0x3333 16). pose proof (land_bound (Z.shiftr a 2) 0x3333 16). lia. }
  assert (E1 : d1 = round1 lo + 2 ^ 16 * round1 hi).
  { unfold d1, d.
    change 0x55555555 with (0x5555 + 2 ^ 16 * 0x5555).
    rewrite land_halves, (land_shiftr_halves 1) by lia.
    unfold add32, wB, round1 in *. rewrite Z.mod_small; [lia|].
    pose proof (Hr1 lo). pose proof (Hr1 hi). unfold round1 in *. lia. }
  assert (E2 : d2 = round2 (round1 lo) + 2 ^ 16 * round2 (round1 hi)).
  { unfold d2. rewrite E1.
    change 0x33333333 with (0x3333 + 2 ^ 16 * 0x3333).
    pose proof (Hr1 lo). pose proof (Hr1 hi).
    rewrite land_halves, (land_shiftr_halves 2) by lia.
    pose proof (Hr2 (round1 lo)). pose proof (Hr2 (round1 hi)).
    assert (0 <= Z.shiftr (round2 (round1 lo)) 4) by (apply Z.shiftr_nonneg; lia).
    assert (0 <= Z.shiftr (round2 (round1 hi)) 4) by (apply Z.shiftr_nonneg; lia).
    unfold add32, wB, round2 in *. rewrite Z.mod_small; lia. }
  unfold d3. rewrite E2. clear d d1 d2 d3 E1 E2.
  set (a := round2 (round1 lo)) in *. set (b := round2 (round1 hi)) in *.
  pose proof (Hr2 (round1 lo)) as Ha0. pose proof (Hr2 (round1 hi)) as Hb0.
  fold a in Ha0. fold b in Hb0.
  rewrite !swar16_rounds. fold a b. unfold round3.
  rewrite !Z.shiftr_div_pow2 in * by lia.
  change (2 ^ 4) with 16 in *. change (2 ^ 14) with 16384 in *.
  change (2 ^ 16) with 65536 in *.
  assert (Hsh : (a + 65536 * b) / 16 = a / 16 + 4096 * (b mod 16) + 65536 * (b / 16)).
  { Z.div_mod_to_equations. lia. }
  rewrite Hsh.
  replace (add32 (a + 65536 * b) (a / 16 + 4096 * (b mod 16) + 65536 * (b / 16)))
    with ((a + a / 16 + 2 ^ 12 * (b mod 16)) + 2 ^ 16 * (b + b / 16)).
  2:{ unfold add32, wB.
      assert (0 <= a / 16) by (apply Z.div_pos; lia).
      assert (0 <= b / 16) by (apply Z.div_pos; lia).
      assert (0 <= b mod 16 < 16) by (apply Z.mod_pos_bound; lia).
      change (2 ^ 12) with 4096. change (2 ^ 16) with 65536.
      change (2 ^ 32) with 4294967296.
      rewrite (Z.mod_small _ 4294967296); lia. }
  change 0x0f0f0f0f with (0x0f0f + 2 ^ 16 * 0x0f0f).
  assert (0 <= a / 16) by (apply Z.div_pos; lia).
  assert (0 <= b / 16) by (apply Z.div_pos; lia).
  assert (0 <= b mod 16 < 16) by (apply Z.mod_pos_bound; lia).
  rewrite land_halves.
  - rewrite land_low_mask by lia. reflexivity.
  - change (2 ^ 12) with 4096. change (2 ^ 16) with 65536. lia.
  - lia.
  - lia.
Qed.

Lemma lxor_range x y : bkey_ok x -> bkey_ok y -> bkey_ok (Z.lxor x y).
Proof.
  unfold bkey_ok, wB. intros Hx Hy. split.
  - apply Z.lxor_nonneg. lia.
  - apply lt_pow2_of_bits; [apply Z.lxor_nonneg; lia | lia |].
    intros i Hi.
    rewrite Z.lxor_spec, (testbit_high x 32 i), (testbit_high y 32 i) by lia.
    reflexivity.
Qed.

(** The bit tricks of [distance] compute the population count. *)
Lemma distance_popcount x y :
  bkey_ok x -> bkey_ok y -> distance x y = popcount (Z.lxor x y).
Proof.
  intros Hx Hy. pose proof (lxor_range x y Hx Hy) as Hd.
  unfold distance. cbv zeta.
  remember (Z.lxor x y) as d eqn:Hdef. clear Hdef.
  unfold bkey_ok, wB in Hd. rewrite popcount_halves.
  remember (d mod 2 ^ 16) as lo eqn:Elo.
  remember (d / 2 ^ 16) as hi eqn:Ehi.
  assert (Hlo : 0 <= lo < 2 ^ 16) by (subst lo; apply Z.mod_pos_bound; lia).
  assert (Hhi : 0 <= hi < 2 ^ 16).
  { subst hi. split; [apply Z.div_pos; lia|].
    apply Z.div_lt_upper_bound; lia. }
  assert (Ed : d = lo + 2 ^ 16 * hi).
  { subst lo hi. pose proof (Z.div_mod d (2 ^ 16)). lia. }
  clear Elo Ehi. subst d.
  pose proof (distance_rounds lo hi Hlo Hhi) as Hr. cbv zeta in Hr.
  rewrite Hr. clear Hr.
  destruct (swar16_facts lo Hlo) as (_ & _ & _ & Hl4 & Hl5 & Hl6).
  destruct (swar16_facts hi Hhi) as (_ & _ & _ & Hh4 & Hh5 & Hh6).
  cbv zeta in *. rewrite <- Hl4, <- Hh4.
  set (s := swar16 lo) in *. set (t := swar16 hi) in *.
  assert (Hs : 0 <= s < 2 ^ 16) by (apply land_bound; lia).
  assert (Ht : 0 <= t < 2 ^ 16) by (apply land_bound; lia).
  change (Z.land ?a 63) with (Z.land a (Z.ones 6)).
  rewrite Z.land_ones, !Z.shiftr_div_pow2 by lia.
  pose proof (Z.div_mod s 256 ltac:(lia)) as Es.
  pose proof (Z.div_mod t 256 ltac:(lia)) as Et.
  pose proof (Z.mod_pos_bound s 256 ltac:(lia)).
  pose proof (Z.mod_pos_bound t 256 ltac:(lia)).
  assert (0 <= s / 256) by (apply Z.div_pos; lia).
  assert (0 <= t / 256) by (apply Z.div_pos; lia).
  set (p0 := s mod 256) in *. set (p1 := s / 256) in *.
  set (q0 := t mod 256) in *. set (q1 := t / 256) in *.
  clearbody p0 p1 q0 q1. rewrite Es, Et. clear Es Et Hl4 Hh4 Hs Ht. clearbody s t.
  unfold add32, wB.
  change (2 ^ 6) with 64. change (2 ^ 8) with 256.
  change (2 ^ 16) with 65536 in *. change (2 ^ 32) with 4294967296.
  set (d3 := 256 * p1 + p0 + 65536 * (256 * q1 + q0)).
  assert (E3 : d3 / 256 = p1 + 256 * q0 + 65536 * q1).
  { symmetry. apply Z.div_unique with (r := p0); unfold d3; lia. }
  rewrite E3. rewrite (Z.mod_small (d3 + _)) by (unfold d3; lia).
  set (d4 := d3 + (p1 + 256 * q0 + 65536 * q1)).
  assert (E4 : d4 / 65536 = q0 + q1 + 256 * q1).
  { symmetry. apply Z.div_unique with (r := p0 + p1 + 256 * (p1 + q0));
      unfold d4, d3; lia. }
  rewrite E4. rewrite (Z.mod_small (d4 + _)) by (unfold d4, d3; lia).
  symmetry.
  apply Z.mod_unique with
    (q := 4 * (p1 + q0 + q1) + 1024 * (q0 + q1) + 262144 * q1);
    unfold d4, d3; lia.
Qed.

(** *** Metric properties *)

Lemma popcount_unfold d : popcount d = popcount_upto 32 d.
Proof. unfold popcount. reflexivity. Qed.

Lemma distance_refl x : distance x x = 0.
Proof. unfold distance. rewrite Z.lxor_nilpotent. vm_compute. reflexivity. Qed.

Lemma distance_sym x y : distance x y = distance y x.
Proof. unfold distance. now rewrite (Z.lxor_comm x y). Qed.

(** Whatever the arguments, the final mask leaves six bits. *)
Lemma distance_lt_64 x y : 0 <= distance x y < 64.
Proof. unfold distance. cbv zeta. apply (land_bound _ 63 6); lia. Qed.

Lemma distance_range x y : bkey_ok x -> bkey_ok y -> 0 <= distance x y <= 32.
Proof.
  intros Hx Hy. rewrite distance_popcount, popcount_unfold by assumption.
  exact (popcount_upto_range 32 (Z.lxor x y)).
Qed.

Lemma popcount_upto_triangle n x y z :
  popcount_upto n (Z.lxor x z) <=
  popcount_upto n (Z.lxor x y) + popcount_upto n (Z.lxor y z).
Proof.
  induction n as [|n IH]; [reflexivity|].
  cbn [popcount_upto]. rewrite !Z.lxor_spec.
  destruct (Z.testbit x (Z.of_nat n)), (Z.testbit y (Z.of_nat n)),
    (Z.testbit z (Z.of_nat n)); simpl Z.b2z; lia.
Qed.

Lemma distance_triangle x y z :
  bkey_ok x -> bkey_ok y -> bkey_ok z ->
  distance x z <= distance x y + distance y z.
Proof.
  intros Hx Hy Hz. rewrite !distance_popcount by assumption.
  rewrite (popcount_unfold (Z.lxor x z)), (popcount_unfold (Z.lxor x y)),
    (popcount_unfold (Z.lxor y z)).
  exact (popcount_upto_triangle 32 x y z).
Qed.

Lemma popcount_upto_zero n d :
  popcount_upto n d = 0 ->
  forall i, 0 <= i < Z.of_nat n -> Z.testbit d i = false.
Proof.
  induction n as [|n IH]; intros H i Hi; [lia|].
  cbn [popcount_upto] in H.
  pose proof (popcount_upto_range n d).
  destruct (Z.testbit d (Z.of_nat n)) eqn:Hb; simpl Z.b2z in H; [lia|].
  destruct (Z.eq_dec i (Z.of_nat n)) as [->|Hne]; [assumption|].
  apply IH; lia.
Qed.

Lemma popcount_zero d : 0 <= d < 2 ^ 32 -> popcount d = 0 -> d = 0.
Proof.
  intros Hd H. rewrite popcount_unfold in H.
  apply Z.bits_inj'. intros i Hi.
  rewrite Z.bits_0.
  destruct (Z_lt_le_dec i 32).
  - apply (popcount_upto_zero 32 d H). lia.
  - apply testbit_high with (k := 32); lia.
Qed.

Lemma distance_zero_eq x y :
  bkey_ok x -> bkey_ok y -> distance x y = 0 -> x = y.
Proof.
  intros Hx Hy H. rewrite distance_popcount in H by assumption.
  apply Z.lxor_eq, popcount_zero; [|exact H].
  apply (lxor_range x y Hx Hy).
Qed.

Lemma distance_zero_iff x y :
  bkey_ok x -> bkey_ok y -> distance x y = 0 <-> x = y.
Proof.
  intros Hx Hy. split; [now apply distance_zero_eq|].
  intros ->. apply distance_refl.
Qed.

Lemma hamming_popcount x y : hamming x y = popcount (Z.lxor x y).
Proof.
  rewrite popcount_unfold. unfold hamming. generalize 32%nat as n.
  induction n as [|n IH]; [reflexivity|].
  rewrite seq_S, List.filter_app, length_app, Nat2Z.inj_add, IH.
  cbn [popcount_upto plus List.filter]. rewrite Z.lxor_spec.
  destruct (xorb _ _); reflexivity.
Qed.

(** ** Outcomes of the build functions *)

(** A build stops on a failed [assert], on a read past the end of the
    histogram, or, in this embedding only, when the recursion budget is
    used up. *)
Inductive failure : Type :=
| AssertionFailed
| ReadOutOfBounds
| FuelExhausted.

Inductive outcome (A : Type) : Type :=
| Done (a : A)
| Abort (e : failure).
Arguments Done {A} a.
Arguments Abort {A} e.

Definition obind {A B : Type} (m : outcome A) (f : A -> outcome B) : outcome B :=
  match m with
  | Done a => f a
  | Abort e => Abort e
  end.

Notation "x <-- m ;; k" := (obind m (fun x => k))
  (at level 100, m at next level, right associativity).

(** ** Result accumulator *)

(** [struct buf]: the [n] keys appended so far and the capacity [a]. *)
Record buf : Type := Buf { buf_keys : list bkey_t; buf_a : nat }.

Definition buf_n (b : buf) : nat := length (buf_keys b).

(** [struct buf q = { 0, 0, 0 }] *)
Definition buf_init : buf := Buf [] 0.

Definition addkey (b : buf) (k : bkey_t) : buf :=
  let a :=
    if (buf_a b <=? buf_n b)%nat
    then (if (buf_a b =? 0)%nat then 16 else 2 * buf_a b)%nat
    else buf_a b in
  Buf (buf_keys b ++ [k]) a.

(** The scan shared by [query_linear] and the leaves of both trees:
    [for (i = 0; i < n; ++i) if (distance(ref, keys[i]) <= maxd) addkey(b, keys[i]);] *)
Definition scan_keys (b : buf) (keys : list bkey_t) (ref : bkey_t) (maxd : Z) : buf :=
  fold_left (fun b k => if distance ref k <=? maxd then addkey b k else b) keys b.

(** ** Linear search *)

Record linear : Type := Linear { lin_count : nat; lin_keys : list bkey_t }.

Definition mktree_linear (keys : list bkey_t) (max_linear : nat) : linear :=
  Linear (length keys) keys.

Definition query_linear (b : buf) (root : linear) (ref : bkey_t) (maxd : Z)
  : buf * nat :=
  (scan_keys b (take (lin_count root) (lin_keys root)) ref maxd, lin_count root).

(** ** Distance histogram, shared by both builds *)

Definition dist_index (rootkey k : bkey_t) : nat := Z.to_nat (distance rootkey k).

(** [for (i = 0; i <= MAX_DISTANCE; ++i) dcnt[i] = 0;] *)
Definition dcnt_clear : list nat := replicate (S MAX_DISTANCE) 0%nat.

(** [for (i = 0; i < n; ++i) dcnt[distance(rootkey, keys[i])]++;] *)
Definition dcnt_count (rootkey : bkey_t) (keys : list bkey_t) : list nat :=
  fold_left (fun dcnt k => alter S (dist_index rootkey k) dcnt) keys dcnt_clear.

(** [for (i = 0, a = 0; i <= MAX_DISTANCE; ++i) dcnt[i] = (a += dcnt[i]);]
    returns the array and the final [a]. *)
Fixpoint dcnt_accumulate (a : nat) (dcnt : list nat) : list nat * nat :=
  match dcnt with
  | [] => ([], a)
  | c :: rest =>
      let a' := (a + c)%nat in
      let '(r, af) := dcnt_accumulate a' rest in (a' :: r, af)
  end.

Definition dcnt_cumulative (rootkey : bkey_t) (keys : list bkey_t) : list nat * nat :=
  dcnt_accumulate 0 (dcnt_count rootkey keys).

(** ** BK-tree *)

(** [struct bktree]; the chain of [sibling] pointers that starts at
    [data.tree.child] is the list [child]; a leaf's [count] and [keys]. *)
Inductive bktree : Type :=
| BkLinear (dist : Z) (count : nat) (keys : list bkey_t)
| BkTree (dist : Z) (key : bkey_t) (child : list bktree).

Definition bk_distance (t : bktree) : Z :=
  match t with
  | BkLinear d _ _ => d
  | BkTree d _ _ => d
  end.

(** [child->distance = i;] *)
Definition bk_set_distance (i : Z) (t : bktree) : bktree :=
  match t with
  | BkLinear _ n keys => BkLinear i n keys
  | BkTree _ key child => BkTree i key child
  end.

(** One turn of [tmp[--pos[distance(rootkey, keys[i])]] = keys[i];] *)
Definition bk_place (rootkey : bkey_t) (st : list nat * list bkey_t) (k : bkey_t)
  : list nat * list bkey_t :=
  let '(pos, tmp) := st in
  let d := dist_index rootkey k in
  let pos' := alter Nat.pred d pos in
  (pos', <[pos' !!! d := k]> tmp).

(** [memcpy(pos, dcnt, sizeof(pos))] and the placement loop; [tmp] is
    fresh memory, here filled with zeros. *)
Definition bk_sort (rootkey : bkey_t) (keys : list bkey_t) (dcnt : list nat)
  : list bkey_t :=
  snd (fold_left (bk_place rootkey) keys (dcnt, replicate (length keys) 0)).

(** The loop [for (i = 1, prev = NULL; i <= MAX_DISTANCE; ++i)] over the
    bucket numbers [buckets], with [build] the recursive call. *)
Fixpoint bk_children (build : list bkey_t -> outcome bktree)
    (tmp : list bkey_t) (dcnt : list nat) (buckets : list nat)
  : outcome (list bktree) :=
  match buckets with
  | [] => Done []
  | i :: buckets' =>
      let off := dcnt !!! (i - 1)%nat in
      let len := (dcnt !!! i - off)%nat in
      if (len =? 0)%nat then bk_children build tmp dcnt buckets'
      else
        child <-- build (take len (drop off tmp)) ;;
        rest <-- bk_children build tmp dcnt buckets' ;;
        Done (bk_set_distance (Z.of_nat i) child :: rest)
  end.

Fixpoint mktree_bk_rec (fuel : nat) (keys : list bkey_t) (max_linear : nat)
  : outcome bktree :=
  match fuel with
  | O => Abort FuelExhausted
  | S fuel' =>
      match keys with
      | [] => Abort AssertionFailed
      | rootkey :: rest =>
          let n := length keys in
          if (n <=? max_linear)%nat || (n <=? 1)%nat
          then Done (BkLinear 0 n keys)
          else if (length rest =? 0)%nat then Done (BkTree 0 rootkey [])
          else
            let '(dcnt, a) := dcnt_cumulative rootkey rest in
            if negb (a =? length rest)%nat then Abort AssertionFailed
            else
              let tmp := bk_sort rootkey rest dcnt in
              child <-- bk_children
                          (fun ks => mktree_bk_rec fuel' ks max_linear)
                          tmp dcnt (seq 1 MAX_DISTANCE) ;;
              Done (BkTree 0 rootkey child)
      end
  end.

(** [mktree_bk(keys, n, max_linear)], [n] the length of [keys]: every
    recursive call is on a strictly shorter range, so a budget of [n + 1]
    calls in depth is never used up. *)
Definition mktree_bk (keys : list bkey_t) (max_linear : nat) : outcome bktree :=
  mktree_bk_rec (S (length keys)) keys max_linear.

(** [for (; p && p->distance + maxd < d; p = p->sibling);] *)
Fixpoint bk_skip (maxd d : Z) (p : list bktree) : list bktree :=
  match p with
  | [] => p
  | q :: sibling =>
      if add32 (bk_distance q) maxd <? d then bk_skip maxd d sibling else p
  end.

(** The second loop,
    [for (; p && p->distance <= maxd + d; p = p->sibling) nc += query_bk(b, p, ref, maxd);]
    with [query] the recursive call. *)
Fixpoint bk_visit (query : buf -> bktree -> buf * nat) (maxd d : Z)
    (p : list bktree) (b : buf) (nc : nat) : buf * nat :=
  match p with
  | [] => (b, nc)
  | q :: sibling =>
      if bk_distance q <=? add32 maxd d then
        let '(b', n) := query b q in
        bk_visit query maxd d sibling b' (nc + n)%nat
      else (b, nc)
  end.

(** [query_bk].  The two loops over the sibling chain are run as one
    walk that starts in the skipping loop ([skipping = true]) and moves on
    to the visiting loop at the first child the skipping test rejects;
    [query_bk_loops] below gives the walk as [bk_skip] then [bk_visit]. *)
Fixpoint query_bk (b : buf) (root : bktree) (ref : bkey_t) (maxd : Z)
    {struct root} : buf * nat :=
  match root with
  | BkLinear _ n keys => (scan_keys b (take n keys) ref maxd, n)
  | BkTree _ key child =>
      let d := distance key ref in
      let b := if d <=? maxd then addkey b key else b in
      (fix walk (skipping : bool) (p : list bktree) (b : buf) (nc : nat)
           {struct p} : buf * nat :=
         match p with
         | [] => (b, nc)
         | q :: sibling =>
             if skipping && (add32 (bk_distance q) maxd <? d) then
               walk true sibling b nc
             else if bk_distance q <=? add32 maxd d then
               let '(b', n) := query_bk b q ref maxd in
               walk false sibling b' (nc + n)%nat
             else (b, nc)
         end) true child b 1%nat
  end.

Lemma query_bk_loops b dist key child ref maxd :
  query_bk b (BkTree dist key child) ref maxd =
  let d := distance key ref in
  bk_visit (fun b q => query_bk b q ref maxd) maxd d (bk_skip maxd d child)
    (if d <=? maxd then addkey b key else b) 1%nat.
Proof.
  cbn [query_bk]. cbv zeta.
  generalize (distance key ref) as d. intros d.
  generalize (if d <=? maxd then addkey b key else b) as b0.
  generalize 1%nat as nc.
  assert (Hvisit : forall p nc b0,
    (fix walk (skipping : bool) (p : list bktree) (b : buf) (nc : nat)
         {struct p} : buf * nat :=
       match p with
       | [] => (b, nc)
       | q :: sibling =>
           if skipping && (add32 (bk_distance q) maxd <? d) then
             walk true sibling b nc
           else if bk_distance q <=? add32 maxd d then
             let '(b', n) := query_bk b q ref maxd in
             walk false sibling b' (nc + n)%nat
           else (b, nc)
       end) false p b0 nc =
    bk_visit (fun b q => query_bk b q ref maxd) maxd d p b0 nc).
  { induction p as [|q p IH]; intros nc b0; [reflexivity|].
    cbn [bk_visit andb]. destruct (bk_distance q <=? add32 maxd d); [|reflexivity].
    destruct (query_bk b0 q ref maxd) as [b' n]. apply IH. }
  induction child as [|q p IH]; intros nc b0; [reflexivity|].
  cbn [bk_skip andb].
  destruct (add32 (bk_distance q) maxd <? d) eqn:E.
  - apply IH.
  - cbn [bk_visit]. destruct (bk_distance q <=? add32 maxd d); [|reflexivity].
    destruct (query_bk b0 q ref maxd) as [b' n]. apply Hvisit.
Qed.

(** ** VP-tree *)

(** [struct vptree]; [None] is a null child pointer. *)
Inductive vptree : Type :=
| VpLinear (count : nat) (keys : list bkey_t)
| VpTree (threshold : Z) (vantage : bkey_t) (near far : option vptree).

(** A read [dcnt[i]] whose index the code does not bound. *)
Definition dcnt_read (dcnt : list nat) (i : nat) : outcome nat :=
  match dcnt !! i with
  | Some v => Done v
  | None => Abort ReadOutOfBounds
  end.

(** [for (k = 1; k <= MAX_DISTANCE; ++k) if (dcnt[k] > median) break;]
    from [k], with [steps] turns left; the value of [k] after the loop. *)
Fixpoint vp_scan (dcnt : list nat) (median : nat) (k : nat) (steps : nat) : nat :=
  match steps with
  | O => k
  | S steps' =>
      if (median <? dcnt !!! k)%nat then k
      else vp_scan dcnt median (S k) steps'
  end.

(** [median = dcnt[0] + (n - dcnt[0]) / 2;] *)
Definition vp_median (dcnt : list nat) (n : nat) : nat :=
  (dcnt !!! 0%nat + (n - dcnt !!! 0%nat) / 2)%nat.

(** The choice of the threshold [k]: the loop, then
    [if (k != 1 && median - dcnt[k-1] <= dcnt[k] - median) k--;] *)
Definition vp_threshold (dcnt : list nat) (n : nat) : outcome nat :=
  let median := vp_median dcnt n in
  let k := vp_scan dcnt median 1 MAX_DISTANCE in
  if negb (k =? 1)%nat then
    lo <-- dcnt_read dcnt (k - 1) ;;
    hi <-- dcnt_read dcnt k ;;
    if (median - lo <=? hi - median)%nat then Done (k - 1)%nat else Done k
  else Done k.

(** One turn of the loop that sorts the keys into the near and far sets. *)
Definition vp_place (rootkey : bkey_t) (k : Z)
    (st : list bkey_t * nat * nat) (x : bkey_t) : list bkey_t * nat * nat :=
  let '(tmp, inear, ifar) := st in
  if x =? rootkey then st
  else if distance rootkey x <=? k then (<[inear := x]> tmp, S inear, ifar)
  else (<[ifar := x]> tmp, inear, S ifar).

Definition vp_partition (rootkey : bkey_t) (k : Z) (keys : list bkey_t)
    (nnear nfar : nat) : list bkey_t * nat * nat :=
  fold_left (vp_place rootkey k) keys
    (replicate (nnear + nfar) 0, 0%nat, nnear).

Fixpoint mktree_vp_rec (fuel : nat) (keys : list bkey_t) (max_linear : nat)
  : outcome vptree :=
  match fuel with
  | O => Abort FuelExhausted
  | S fuel' =>
      match keys with
      | [] => Abort AssertionFailed
      | rootkey :: rest =>
          let n := length keys in
          if (n <=? max_linear)%nat || (n <=? 1)%nat
          then Done (VpLinear n keys)
          else
            let n := length rest in
            if (n =? 0)%nat then Done (VpTree 0 rootkey None None)
            else
              let '(dcnt, a) := dcnt_cumulative rootkey rest in
              if negb (a =? n)%nat then Abort AssertionFailed
              else
                k <-- vp_threshold dcnt n ;;
                let nnear := (dcnt !!! k - dcnt !!! 0%nat)%nat in
                let nfar := (n - dcnt !!! k)%nat in
                let '(tmp, inear, ifar) :=
                  vp_partition rootkey (Z.of_nat k) rest nnear nfar in
                if negb (inear =? nnear)%nat then Abort AssertionFailed
                else if negb (ifar =? nnear + nfar)%nat then Abort AssertionFailed
                else
                  near <-- (if (nnear =? 0)%nat then Done None
                            else t <-- mktree_vp_rec fuel' (take nnear tmp)
                                         max_linear ;;
                                 Done (Some t)) ;;
                  far <-- (if (nfar =? 0)%nat then Done None
                           else t <-- mktree_vp_rec fuel'
                                        (take nfar (drop nnear tmp))
                                        max_linear ;;
                                Done (Some t)) ;;
                  Done (VpTree (Z.of_nat k) rootkey near far)
      end
  end.

Definition mktree_vp (keys : list bkey_t) (max_linear : nat) : outcome vptree :=
  mktree_vp_rec (S (length keys)) keys max_linear.

Fixpoint query_vp (b : buf) (root : vptree) (ref : bkey_t) (maxd : Z)
  : buf * nat :=
  match root with
  | VpLinear n keys => (scan_keys b (take n keys) ref maxd, n)
  | VpTree thr vantage near far =>
      let d := distance vantage ref in
      let '(b, nc) :=
        if d <=? add32 maxd thr then
          let '(b, nc) :=
            match near with
            | Some t =>
                let '(b', n) := query_vp b t ref maxd in (b', (1 + n)%nat)
            | None => (b, 1%nat)
            end in
          (if d <=? maxd then addkey b vantage else b, nc)
        else (b, 1%nat) in
      if thr <? add32 d maxd then
        match far with
        | Some t =>
            let '(b', n) := query_vp b t ref maxd in (b', (nc + n)%nat)
        | None => (b, nc)
        end
      else (b, nc)
  end.

(** ** The histogram and the counting sort *)

(** The keys of [keys] whose distance to [rootkey] is [i], in input order,
    and those whose distance is at most [i]. *)
Definition bucket (rootkey : bkey_t) (keys : list bkey_t) (i : nat) : list bkey_t :=
  filter (fun k => dist_index rootkey k = i) keys.

Definition upto (rootkey : bkey_t) (keys : list bkey_t) (i : nat) : list bkey_t :=
  filter (fun k => (dist_index rootkey k <= i)%nat) keys.

Section Histogram.
Local Open Scope nat_scope.
Variable rootkey : bkey_t.

Lemma bucket_snoc keys k i :
  bucket rootkey (keys ++ [k]) i =
  bucket rootkey keys i ++ (if decide (dist_index rootkey k = i) then [k] else []).
Proof.
  unfold bucket. rewrite list.filter_app. reflexivity.
Qed.

Lemma upto_0 keys : upto rootkey keys 0 = bucket rootkey keys 0.
Proof.
  unfold upto, bucket. apply list_filter_iff. intros k. lia.
Qed.

Lemma upto_S_length keys i :
  length (upto rootkey keys (S i)) =
  length (upto rootkey keys i) + length (bucket rootkey keys (S i)).
Proof.
  unfold upto, bucket. induction keys as [|k keys IH]; [reflexivity|].
  rewrite !filter_cons.
  repeat case_decide; simpl; lia.
Qed.

Lemma upto_length_mono keys i j :
  i <= j -> length (upto rootkey keys i) <= length (upto rootkey keys j).
Proof.
  induction 1 as [|j _ IH]; [lia|]. rewrite upto_S_length. lia.
Qed.

Lemma upto_length_le keys i : length (upto rootkey keys i) <= length keys.
Proof. apply length_filter. Qed.

Lemma bucket_length_le_upto keys i :
  length (bucket rootkey keys i) <= length (upto rootkey keys i).
Proof.
  destruct i as [|i]; [now rewrite upto_0|]. rewrite upto_S_length. lia.
Qed.

(** When every distance is at most [i], all keys are counted. *)
Lemma upto_all keys i :
  Forall (fun k => dist_index rootkey k <= i) keys -> upto rootkey keys i = keys.
Proof.
  intros H. unfold upto. induction H as [|k keys Hk _ IH]; [reflexivity|].
  rewrite filter_cons_True by assumption. now f_equal.
Qed.

Lemma dcnt_count_lookup keys i :
  i < S MAX_DISTANCE ->
  dcnt_count rootkey keys !! i = Some (length (bucket rootkey keys i)).
Proof.
  intros Hi. unfold dcnt_count.
  induction keys as [|k keys IH] using rev_ind.
  - simpl. unfold dcnt_clear. rewrite lookup_replicate_2 by assumption.
    reflexivity.
  - rewrite fold_left_app. simpl. rewrite bucket_snoc, length_app.
    destruct (decide (dist_index rootkey k = i)) as [->|Hne].
    + rewrite list_lookup_alter_eq, IH. simpl. f_equal. lia.
    + rewrite list_lookup_alter_ne, IH by assumption. simpl. f_equal. lia.
Qed.

Lemma dcnt_count_length keys : length (dcnt_count rootkey keys) = S MAX_DISTANCE.
Proof.
  unfold dcnt_count. induction keys as [|k keys IH] using rev_ind.
  - reflexivity.
  - rewrite fold_left_app. simpl. now rewrite length_alter.
Qed.

Lemma dcnt_accumulate_length a c : length (fst (dcnt_accumulate a c)) = length c.
Proof.
  revert a. induction c as [|x c IH]; intros a; [reflexivity|].
  simpl. specialize (IH (a + x)). destruct (dcnt_accumulate (a + x) c).
  simpl in *. now rewrite IH.
Qed.

Lemma dcnt_accumulate_lookup c : forall a i x,
  c !! i = Some x ->
  fst (dcnt_accumulate a c) !! i = Some (a + sum_list (take i c) + x).
Proof.
  induction c as [|y c IH]; intros a i x Hi; [discriminate|].
  simpl. pose proof (IH (a + y)) as IH'.
  destruct (dcnt_accumulate (a + y) c) as [r af]. simpl in *.
  destruct i as [|i]; simpl in *.
  - injection Hi as ->. f_equal. lia.
  - rewrite (IH' i x Hi). f_equal. lia.
Qed.

Lemma dcnt_accumulate_total c : forall a,
  snd (dcnt_accumulate a c) = a + sum_list c.
Proof.
  induction c as [|y c IH]; intros a; simpl; [lia|].
  specialize (IH (a + y)). destruct (dcnt_accumulate (a + y) c). simpl in *. lia.
Qed.

Lemma sum_take_counts keys i :
  i < S MAX_DISTANCE ->
  sum_list (take i (dcnt_count rootkey keys)) +
    length (bucket rootkey keys i) = length (upto rootkey keys i).
Proof.
  induction i as [|i IH]; intros Hi.
  - rewrite take_0, upto_0. reflexivity.
  - rewrite (take_S_r _ _ (length (bucket rootkey keys i)))
      by (apply dcnt_count_lookup; lia).
    rewrite sum_list_with_app, upto_S_length. simpl. rewrite <- IH by lia. lia.
Qed.

(** Entry [i] of the cumulative histogram counts the keys at distance
    at most [i]. *)
Lemma dcnt_cumulative_lookup keys i :
  i < S MAX_DISTANCE ->
  fst (dcnt_cumulative rootkey keys) !! i = Some (length (upto rootkey keys i)).
Proof.
  intros Hi. unfold dcnt_cumulative.
  rewrite (dcnt_accumulate_lookup _ _ _ _ (dcnt_count_lookup keys i Hi)).
  f_equal. pose proof (sum_take_counts keys i Hi). lia.
Qed.

Lemma dcnt_cumulative_total_lookup keys i :
  i < S MAX_DISTANCE ->
  fst (dcnt_cumulative rootkey keys) !!! i = length (upto rootkey keys i).
Proof.
  intros Hi. apply list_lookup_total_correct. now apply dcnt_cumulative_lookup.
Qed.

Lemma dcnt_cumulative_length keys :
  length (fst (dcnt_cumulative rootkey keys)) = S MAX_DISTANCE.
Proof.
  unfold dcnt_cumulative. now rewrite dcnt_accumulate_length, dcnt_count_length.
Qed.

(** The final [a] is the last entry. *)
Lemma dcnt_cumulative_total keys :
  snd (dcnt_cumulative rootkey keys) = length (upto rootkey keys MAX_DISTANCE).
Proof.
  unfold dcnt_cumulative. rewrite dcnt_accumulate_total. simpl.
  pose proof (sum_take_counts keys MAX_DISTANCE ltac:(unfold MAX_DISTANCE; lia)) as H.
  rewrite <- H.
  rewrite <- (take_drop MAX_DISTANCE (dcnt_count rootkey keys)) at 1.
  rewrite sum_list_with_app. f_equal.
  pose proof (dcnt_count_lookup keys MAX_DISTANCE ltac:(unfold MAX_DISTANCE; lia)) as Hl.
  pose proof (dcnt_count_length keys) as Hlen.
  rewrite (drop_S _ _ _ Hl), drop_ge by lia. simpl. lia.
Qed.
End Histogram.

Section CountingSort.
Local Open Scope nat_scope.
Variable rootkey : bkey_t.
Variable keys : list bkey_t.
Hypothesis Hidx : Forall (fun k => dist_index rootkey k <= MAX_DISTANCE) keys.

Let cum (i : nat) : nat := length (upto rootkey keys i).
Let dcnt : list nat := fst (dcnt_cumulative rootkey keys).

(** What the placement loop has established after the keys [done]:
    [pos[i]] has moved down by the number of keys placed in bucket [i],
    and these keys sit, last placed first, from [pos[i]] on. *)
Definition placed (done : list bkey_t) (st : list nat * list bkey_t) : Prop :=
  length st.1 = S MAX_DISTANCE /\ length st.2 = length keys /\
  (forall i, i < S MAX_DISTANCE ->
     st.1 !! i = Some (cum i - length (bucket rootkey done i))) /\
  (forall i j, i < S MAX_DISTANCE -> j < length (bucket rootkey done i) ->
     st.2 !! (cum i - length (bucket rootkey done i) + j) =
     reverse (bucket rootkey done i) !! j).

Lemma bucket_prefix_le done rest i :
  keys = done ++ rest ->
  length (bucket rootkey done i) <= length (bucket rootkey keys i).
Proof.
  intros ->. unfold bucket. rewrite list.filter_app, length_app. lia.
Qed.

Lemma cum_le_length i : cum i <= length keys.
Proof. apply upto_length_le. Qed.

Lemma bucket_le_cum i : length (bucket rootkey keys i) <= cum i.
Proof. apply bucket_length_le_upto. Qed.

(** The ranges of two different buckets do not overlap. *)
Lemma cum_below i i' :
  i < i' -> cum i <= cum i' - length (bucket rootkey keys i').
Proof.
  intros Hlt. destruct i' as [|i']; [lia|].
  unfold cum. rewrite upto_S_length.
  pose proof (upto_length_mono rootkey keys i i' ltac:(lia)). lia.
Qed.

Lemma placed_init : placed [] (dcnt, replicate (length keys) 0%Z).
Proof.
  unfold placed, dcnt. simpl. repeat split.
  - apply dcnt_cumulative_length.
  - apply length_replicate.
  - intros i Hi. rewrite dcnt_cumulative_lookup by assumption.
    f_equal. unfold cum. lia.
  - intros i j _ Hj. lia.
Qed.

Lemma placed_step done k rest st :
  keys = (done ++ [k]) ++ rest ->
  placed done st -> placed (done ++ [k]) (bk_place rootkey st k).
Proof using Hidx.
  intros Hkeys (Hlp & Hlt & Hpos & Htmp). destruct st as [pos tmp]. simpl in *.
  assert (Hd : dist_index rootkey k < S MAX_DISTANCE).
  { pose proof Hidx as H. rewrite Hkeys in H.
    apply Forall_app in H as [H _]. apply Forall_app in H as [_ H].
    inversion H; subst. lia. }
  set (d := dist_index rootkey k) in *.
  set (c := fun i => length (bucket rootkey done i)).
  assert (Hc' : forall i, length (bucket rootkey (done ++ [k]) i) =
                          if decide (d = i) then S (c i) else c i).
  { intros i. rewrite bucket_snoc, length_app. fold d. unfold c.
    case_decide; simpl; lia. }
  assert (Hle : forall i, length (bucket rootkey (done ++ [k]) i)
                          <= length (bucket rootkey keys i)).
  { intros i. now apply bucket_prefix_le with rest. }
  assert (Hpd : alter Nat.pred d pos !!! d = cum d - S (c d)).
  { apply list_lookup_total_correct.
    rewrite list_lookup_alter_eq, Hpos by assumption. simpl. f_equal.
    unfold c. lia. }
  unfold placed, bk_place. fold d. simpl. rewrite Hpd.
  pose proof (Hle d) as Hled. rewrite Hc', decide_True in Hled by reflexivity.
  pose proof (bucket_le_cum d) as Hbd. pose proof (cum_le_length d) as Hcd.
  repeat split.
  - now rewrite length_alter.
  - now rewrite length_insert.
  - intros i Hi. rewrite Hc'. destruct (decide (d = i)) as [<-|Hne].
    + rewrite list_lookup_alter_eq, Hpos by assumption. simpl. f_equal.
      unfold c. lia.
    + rewrite list_lookup_alter_ne, Hpos by assumption. reflexivity.
  - intros i j Hi Hj. rewrite Hc' in Hj |- *.
    rewrite bucket_snoc. fold d.
    destruct (decide (d = i)) as [<-|Hne].
    + rewrite reverse_snoc. destruct j as [|j].
      * rewrite Nat.add_0_r, list_lookup_insert_eq by lia. reflexivity.
      * rewrite list_lookup_insert_ne by lia. simpl.
        rewrite <- (Htmp d j) by (unfold c in *; lia).
        f_equal. unfold c in *. lia.
    + rewrite app_nil_r.
      pose proof (Hle i) as Hlei. rewrite Hc', decide_False in Hlei by assumption.
      pose proof (bucket_le_cum i) as Hbi.
      rewrite list_lookup_insert_ne; [now apply Htmp|].
      destruct (Nat.lt_ge_cases d i) as [Hdi|Hge].
      * pose proof (cum_below d i Hdi). unfold c in *. lia.
      * pose proof (cum_below i d ltac:(lia)). unfold c in *. lia.
Qed.

Lemma placed_fold done rest :
  keys = done ++ rest ->
  placed done (fold_left (bk_place rootkey) done
                 (dcnt, replicate (length keys) 0%Z)).
Proof using Hidx.
  revert rest. induction done as [|k done IH] using rev_ind; intros rest Hk.
  - apply placed_init.
  - rewrite fold_left_app. simpl.
    apply placed_step with rest; [assumption|].
    apply IH with (k :: rest). now rewrite <- app_assoc in Hk.
Qed.

(** The counting sort leaves bucket [i] in the range that starts at the
    number of keys closer than [i], holding its keys in reverse input
    order. *)
Lemma bk_sort_bucket i :
  i < S MAX_DISTANCE ->
  take (length (bucket rootkey keys i))
    (drop (cum i - length (bucket rootkey keys i)) (bk_sort rootkey keys dcnt))
  = reverse (bucket rootkey keys i).
Proof using Hidx.
  intros Hi. unfold bk_sort.
  destruct (placed_fold keys [] (eq_sym (app_nil_r keys)))
    as (_ & _ & _ & Htmp).
  apply list_eq. intros j.
  destruct (Nat.lt_ge_cases j (length (bucket rootkey keys i))) as [Hj|Hj].
  - rewrite lookup_take_lt, lookup_drop by assumption. now apply Htmp.
  - rewrite lookup_take_ge by assumption. symmetry.
    apply lookup_ge_None_2. now rewrite length_reverse.
Qed.

Lemma bk_sort_length : length (bk_sort rootkey keys dcnt) = length keys.
Proof using Hidx.
  unfold bk_sort.
  now destruct (placed_fold keys [] (eq_sym (app_nil_r keys))) as (_ & H & _).
Qed.
End CountingSort.

(** ** What a tree holds *)

(** The keys a query can reach in a BK-tree, in the order a full
    traversal meets them: the keys of a leaf, the center of an internal
    node followed by the keys of its children. *)
Fixpoint bk_keys (t : bktree) : list bkey_t :=
  match t with
  | BkLinear _ n keys => take n keys
  | BkTree _ key child =>
      key :: (fix go (l : list bktree) : list bkey_t :=
                match l with
                | [] => []
                | q :: l' => bk_keys q ++ go l'
                end) child
  end.

(** The key arrays of the leaves, left to right. *)
Fixpoint bk_leaves (t : bktree) : list (list bkey_t) :=
  match t with
  | BkLinear _ n keys => [take n keys]
  | BkTree _ _ child =>
      (fix go (l : list bktree) : list (list bkey_t) :=
         match l with
         | [] => []
         | q :: l' => bk_leaves q ++ go l'
         end) child
  end.

(** The centers of the internal nodes. *)
Fixpoint bk_centers (t : bktree) : list bkey_t :=
  match t with
  | BkLinear _ _ _ => []
  | BkTree _ key child =>
      key :: (fix go (l : list bktree) : list bkey_t :=
                match l with
                | [] => []
                | q :: l' => bk_centers q ++ go l'
                end) child
  end.

Definition bk_is_leaf (t : bktree) : bool :=
  match t with
  | BkLinear _ _ _ => true
  | BkTree _ _ _ => false
  end.

(** The shape [mktree_bk] gives a tree: a leaf's count is the length of
    its array; the children of a node come in strictly increasing
    distance, each distance in 1..32, and a child of distance [c] holds
    only keys at distance [c] from the center. *)
Fixpoint bk_wf (t : bktree) : Prop :=
  match t with
  | BkLinear _ n keys => n = length keys
  | BkTree _ key child =>
      StronglySorted Z.lt (bk_distance <$> child) /\
      (fix all (l : list bktree) : Prop :=
         match l with
         | [] => True
         | q :: l' =>
             (1 <= bk_distance q <= 32 /\
              Forall (fun x => distance key x = bk_distance q) (bk_keys q) /\
              bk_wf q) /\ all l'
         end) child
  end.

Lemma bk_keys_tree d key child :
  bk_keys (BkTree d key child) = key :: concat (bk_keys <$> child).
Proof.
  cbn [bk_keys]. f_equal. induction child as [|q l IH]; [reflexivity|].
  simpl. now rewrite IH.
Qed.

Lemma bk_leaves_tree d key child :
  bk_leaves (BkTree d key child) = concat (bk_leaves <$> child).
Proof.
  cbn [bk_leaves]. induction child as [|q l IH]; [reflexivity|].
  simpl. now rewrite IH.
Qed.

Lemma bk_centers_tree d key child :
  bk_centers (BkTree d key child) = key :: concat (bk_centers <$> child).
Proof.
  cbn [bk_centers]. f_equal. induction child as [|q l IH]; [reflexivity|].
  simpl. now rewrite IH.
Qed.

Lemma bk_wf_tree d key child :
  bk_wf (BkTree d key child) <->
  StronglySorted Z.lt (bk_distance <$> child) /\
  Forall (fun q => 1 <= bk_distance q <= 32 /\
                   Forall (fun x => distance key x = bk_distance q) (bk_keys q) /\
                   bk_wf q) child.
Proof.
  cbn [bk_wf]. apply and_iff_compat_l.
  induction child as [|q l IH].
  - split; [constructor | trivial].
  - rewrite Forall_cons, IH. reflexivity.
Qed.

(** Induction over a BK-tree and the trees below it. *)
Lemma bktree_rect' (P : bktree -> Prop) :
  (forall d n keys, P (BkLinear d n keys)) ->
  (forall d key child, Forall P child -> P (BkTree d key child)) ->
  forall t, P t.
Proof.
  intros Hleaf Hnode. fix IH 1. intros [d n keys|d key child].
  - apply Hleaf.
  - apply Hnode. induction child as [|q l IHl]; constructor.
    + apply IH.
    + apply IHl.
Qed.

Lemma bk_keys_set_distance i t : bk_keys (bk_set_distance i t) = bk_keys t.
Proof. destruct t; reflexivity. Qed.

Lemma bk_leaves_set_distance i t : bk_leaves (bk_set_distance i t) = bk_leaves t.
Proof. destruct t; reflexivity. Qed.

Lemma bk_centers_set_distance i t : bk_centers (bk_set_distance i t) = bk_centers t.
Proof. destruct t; reflexivity. Qed.

Lemma bk_wf_set_distance i t : bk_wf (bk_set_distance i t) <-> bk_wf t.
Proof. destruct t; reflexivity. Qed.

Lemma bk_distance_set_distance i t : bk_distance (bk_set_distance i t) = i.
Proof. destruct t; reflexivity. Qed.

(** *** Distances of keys in range *)

Lemma dist_index_le rootkey k :
  bkey_ok rootkey -> bkey_ok k -> (dist_index rootkey k <= MAX_DISTANCE)%nat.
Proof.
  intros Hr Hk. pose proof (distance_range rootkey k Hr Hk).
  unfold dist_index, MAX_DISTANCE. lia.
Qed.

Lemma dist_index_eq rootkey k i :
  dist_index rootkey k = i <-> distance rootkey k = Z.of_nat i.
Proof.
  pose proof (distance_lt_64 rootkey k). unfold dist_index. lia.
Qed.

Lemma dist_index_0 rootkey k :
  bkey_ok rootkey -> bkey_ok k -> dist_index rootkey k = 0%nat <-> k = rootkey.
Proof.
  intros Hr Hk. rewrite dist_index_eq. change (Z.of_nat 0) with 0.
  rewrite distance_zero_iff by assumption. split; congruence.
Qed.

Lemma Forall_dist_index rootkey keys :
  bkey_ok rootkey -> Forall bkey_ok keys ->
  Forall (fun k => (dist_index rootkey k <= MAX_DISTANCE)%nat) keys.
Proof.
  intros Hr H. induction H; constructor; [now apply dist_index_le | assumption].
Qed.

(** ** Building a BK-tree *)

(** *** Lists of lists *)

Lemma elem_of_concat {A} (x : A) (ls : list (list A)) :
  x ∈ concat ls <-> exists l, l ∈ ls /\ x ∈ l.
Proof.
  induction ls as [|l ls IH]; simpl.
  - split; [intros H; inversion H | intros (l & H & _); inversion H].
  - rewrite elem_of_app, IH. split.
    + intros [H|(l' & H1 & H2)].
      * exists l. split; [left | assumption].
      * exists l'. split; [now right | assumption].
    + intros (l' & H1 & H2). apply elem_of_cons in H1 as [->|H1]; [now left|].
      right. now exists l'.
Qed.


Lemma concat_submseteq {A B} (f : A -> list B) (g : nat -> list B)
    (idxs : list nat) (qs : list A) :
  Forall2 (fun i q => f q ⊆+ g i) idxs qs ->
  concat (f <$> qs) ⊆+ concat (g <$> idxs).
Proof.
  induction 1 as [|i q idxs qs H _ IH]; [reflexivity|].
  simpl. now apply submseteq_app.
Qed.

(** *** Buckets *)

Section Buckets.
Local Open Scope nat_scope.
Variable rootkey : bkey_t.

Lemma bucket_elem keys i x :
  x ∈ bucket rootkey keys i <-> dist_index rootkey x = i /\ x ∈ keys.
Proof.
  unfold bucket.
  exact (list_elem_of_filter (fun k => dist_index rootkey k = i) keys x).
Qed.

Lemma Forall_bucket (P : bkey_t -> Prop) keys i :
  Forall P keys -> Forall P (bucket rootkey keys i).
Proof.
  intros H. apply Forall_forall. intros x Hx. apply bucket_elem in Hx as [_ Hx].
  rewrite Forall_forall in H. now apply H.
Qed.

Lemma bucket_other keys i j :
  i <> j ->
  bucket rootkey (filter (fun k => dist_index rootkey k <> i) keys) j =
  bucket rootkey keys j.
Proof.
  intros Hne. unfold bucket. rewrite list_filter_filter.
  apply list_filter_iff. intros k. split; [tauto|]. intros <-. split; congruence.
Qed.

(** Buckets of different distances share no position of the input. *)
Lemma buckets_submseteq idxs :
  NoDup idxs -> forall keys, concat (bucket rootkey keys <$> idxs) ⊆+ keys.
Proof.
  induction 1 as [|i idxs Hi _ IH]; intros keys; [apply submseteq_nil_l|].
  rewrite fmap_cons. cbn [concat].
  assert (E : bucket rootkey keys <$> idxs =
              bucket rootkey (filter (fun k => dist_index rootkey k <> i) keys)
                <$> idxs).
  { apply list_fmap_ext. intros n j Hj. symmetry. apply bucket_other.
    intros ->. apply Hi. eapply list_elem_of_lookup_2, Hj. }
  etransitivity;
    [|apply Permutation_submseteq,
        (filter_app_complement (fun k => dist_index rootkey k = i) keys)].
  apply submseteq_app; [reflexivity|].
  rewrite E. apply IH.
Qed.

Lemma bucket_nonempty_concat keys idxs :
  concat (bucket rootkey keys <$>
            filter (fun i => length (bucket rootkey keys i) <> 0) idxs) =
  concat (bucket rootkey keys <$> idxs).
Proof.
  induction idxs as [|i idxs IH]; [reflexivity|].
  rewrite filter_cons.
  case_decide as Hlen; rewrite !fmap_cons; cbn [concat]; rewrite IH;
    [reflexivity|].
  destruct (bucket rootkey keys i); [reflexivity | simpl in Hlen; lia].
Qed.

(** The bucket ranges the child loop reads off the cumulative histogram. *)
Lemma bk_slice_off keys i :
  i < MAX_DISTANCE ->
  (dcnt_cumulative rootkey keys).1 !!! (S i - 1) = length (upto rootkey keys i).
Proof.
  intros Hi. replace (S i - 1) with i by lia.
  apply dcnt_cumulative_total_lookup. lia.
Qed.

Lemma bk_slice_len keys i :
  i < MAX_DISTANCE ->
  (dcnt_cumulative rootkey keys).1 !!! S i -
    (dcnt_cumulative rootkey keys).1 !!! (S i - 1) =
  length (bucket rootkey keys (S i)).
Proof.
  intros Hi. rewrite bk_slice_off by assumption.
  rewrite dcnt_cumulative_total_lookup by lia.
  rewrite upto_S_length. lia.
Qed.

Lemma bk_slice keys i :
  Forall (fun k => dist_index rootkey k <= MAX_DISTANCE) keys ->
  i < MAX_DISTANCE ->
  take ((dcnt_cumulative rootkey keys).1 !!! S i -
          (dcnt_cumulative rootkey keys).1 !!! (S i - 1))
    (drop ((dcnt_cumulative rootkey keys).1 !!! (S i - 1))
       (bk_sort rootkey keys (dcnt_cumulative rootkey keys).1)) =
  reverse (bucket rootkey keys (S i)).
Proof.
  intros Hidx Hi. rewrite bk_slice_len, bk_slice_off by assumption.
  rewrite <- (bk_sort_bucket rootkey keys Hidx (S i)) by lia.
  do 2 f_equal. rewrite upto_S_length. lia.
Qed.
End Buckets.

Lemma sorted_filter_seq (P : nat -> Prop) `{forall i, Decision (P i)} n : forall a,
  StronglySorted Z.lt (Z.of_nat <$> filter P (seq a n)).
Proof.
  induction n as [|n IH]; intros a; [constructor|].
  simpl. rewrite filter_cons. case_decide; [|apply IH].
  rewrite fmap_cons. constructor; [apply IH|].
  apply Forall_fmap, Forall_forall. intros j Hj.
  apply list_elem_of_filter in Hj as [_ Hj]. apply elem_of_seq in Hj. simpl. lia.
Qed.

(** *** The child loop *)

Lemma bk_children_build (build : list bkey_t -> outcome bktree)
    (tmp : list bkey_t) (dcnt : list nat) (P : nat -> bktree -> Prop)
    (idx : list nat) :
  (forall i, i ∈ idx -> (dcnt !!! i - dcnt !!! (i - 1) <> 0)%nat ->
     exists q,
       build (take (dcnt !!! i - dcnt !!! (i - 1))%nat
                (drop (dcnt !!! (i - 1)%nat) tmp)) = Done q /\ P i q) ->
  exists child,
    bk_children build tmp dcnt idx = Done child /\
    Forall2 (fun i q => exists q', P i q' /\ q = bk_set_distance (Z.of_nat i) q')
      (filter (fun i => (dcnt !!! i - dcnt !!! (i - 1) <> 0)%nat) idx) child.
Proof.
  induction idx as [|i idx IH]; intros Hbuild.
  - exists []. split; [reflexivity | constructor].
  - destruct IH as (rest & Hrest & HF).
    { intros j Hj. apply Hbuild. now right. }
    cbn [bk_children]. rewrite filter_cons.
    destruct (Nat.eqb_spec (dcnt !!! i - dcnt !!! (i - 1))%nat 0%nat) as [E|E].
    + rewrite decide_False by lia. exists rest. split; assumption.
    + rewrite decide_True by assumption.
      destruct (Hbuild i ltac:(left) E) as (q & Hq & HP).
      rewrite Hq. cbn [obind]. rewrite Hrest. cbn [obind].
      eexists. split; [reflexivity|]. constructor; [|assumption].
      exists q. split; [assumption | reflexivity].
Qed.

(** *** What [mktree_bk] builds *)

Definition leaf_size_ok (max_linear : nat) (l : list bkey_t) : Prop :=
  (1 <= length l)%nat /\ ((length l <= max_linear)%nat \/ length l = 1%nat).

Record bk_built (max_linear : nat) (keys : list bkey_t) (t : bktree) : Prop := {
  built_distance : bk_distance t = 0;
  built_wf : bk_wf t;
  built_sub : bk_keys t ⊆+ keys;
  built_all : forall x, x ∈ keys -> x ∈ bk_keys t;
  built_leaves : Forall (leaf_size_ok max_linear) (bk_leaves t);
  built_is_leaf :
    bk_is_leaf t = (length keys <=? max_linear)%nat || (length keys <=? 1)%nat
}.

Lemma Forall_concat {A} (P : A -> Prop) (ls : list (list A)) :
  Forall (Forall P) ls -> Forall P (concat ls).
Proof.
  induction 1 as [|l ls Hl _ IH]; [constructor|].
  simpl. apply Forall_app. split; assumption.
Qed.

Lemma mktree_bk_rec_built fuel : forall keys max_linear,
  Forall bkey_ok keys -> keys <> [] -> (length keys <= fuel)%nat ->
  exists t, mktree_bk_rec fuel keys max_linear = Done t /\
            bk_built max_linear keys t.
Proof.
  induction fuel as [|fuel IH]; intros keys ml Hok Hne Hlen.
  { destruct keys; [congruence | simpl in Hlen; lia]. }
  destruct keys as [|rootkey rest]; [congruence|]. clear Hne.
  cbn [mktree_bk_rec].
  match goal with
  | |- context [if ?c then Done (BkLinear _ _ _) else _] => destruct c eqn:Hleaf
  end.
  - (* leaf *)
    eexists. split; [reflexivity|].
    assert (Htake : take (length (rootkey :: rest)) (rootkey :: rest) = rootkey :: rest)
      by (apply take_ge; lia).
    split.
    + reflexivity.
    + reflexivity.
    + cbn [bk_keys]. now rewrite Htake.
    + intros x Hx. cbn [bk_keys]. now rewrite Htake.
    + cbn [bk_leaves]. rewrite Htake. constructor; [|constructor].
      unfold leaf_size_ok. apply orb_true_iff in Hleaf.
      simpl length in *. destruct Hleaf as [H|H].
      * apply Nat.leb_le in H. lia.
      * apply Nat.leb_le in H. lia.
    + cbn [bk_is_leaf]. now rewrite Hleaf.
  - (* internal node *)
    apply orb_false_iff in Hleaf as [Hml H1].
    apply Nat.leb_gt in Hml, H1. simpl length in Hml, H1, Hlen.
    inversion Hok as [|? ? Hroot Hrest]; subst.
    destruct (Nat.eqb_spec (length rest) 0) as [E|_]; [lia|].
    pose proof (Forall_dist_index rootkey rest Hroot Hrest) as Hidx.
    pose proof (dcnt_cumulative_total rootkey rest) as Ha.
    rewrite (upto_all rootkey rest MAX_DISTANCE Hidx) in Ha.
    destruct (dcnt_cumulative rootkey rest) as [dcnt a] eqn:Ecum.
    simpl in Ha. subst a. rewrite Nat.eqb_refl. cbn [negb].
    assert (Edcnt : dcnt = (dcnt_cumulative rootkey rest).1) by now rewrite Ecum.
    destruct (bk_children_build
                (fun ks => mktree_bk_rec fuel ks ml)
                (bk_sort rootkey rest dcnt) dcnt
                (fun i q => bk_built ml (reverse (bucket rootkey rest i)) q)
                (seq 1 MAX_DISTANCE)) as (child & Hchild & HF).
    { intros i Hi Hlen0. apply elem_of_seq in Hi.
      destruct i as [|i]; [lia|]. rewrite Edcnt in Hlen0 |- *.
      rewrite bk_slice by (assumption || lia).
      rewrite bk_slice_len in Hlen0 by lia.
      apply IH.
      - apply Forall_reverse. now apply Forall_bucket.
      - intros Hnil. apply (f_equal length) in Hnil.
        rewrite length_reverse in Hnil. simpl in Hnil. lia.
      - rewrite length_reverse. unfold bucket.
        pose proof (length_filter (fun k => dist_index rootkey k = S i) rest). lia. }
    rewrite Hchild. cbn [obind]. eexists. split; [reflexivity|].
    set (idxs := filter (fun i => (dcnt !!! i - dcnt !!! (i - 1) <> 0)%nat)
                   (seq 1 MAX_DISTANCE)) in *.
    assert (Hidxs : forall i, i ∈ idxs -> (1 <= i <= MAX_DISTANCE)%nat).
    { intros i Hi. apply list_elem_of_filter in Hi as [_ Hi].
      apply elem_of_seq in Hi. lia. }
    assert (Hin : forall i x, (1 <= i <= MAX_DISTANCE)%nat ->
                    x ∈ bucket rootkey rest i -> i ∈ idxs).
    { intros i x Hi Hx. apply list_elem_of_filter. split.
      - destruct i as [|i]; [lia|]. rewrite Edcnt, bk_slice_len by lia.
        destruct (bucket rootkey rest (S i)); [inversion Hx | simpl; lia].
      - apply elem_of_seq. lia. }
    assert (Hnd : NoDup idxs) by apply NoDup_filter, NoDup_seq.
    assert (Hsorted : StronglySorted Z.lt (Z.of_nat <$> idxs))
      by apply sorted_filter_seq.
    clearbody idxs. clear Hchild IH Ecum Edcnt.
    split.
    + reflexivity.
    + apply bk_wf_tree. split.
      * replace (bk_distance <$> child) with (Z.of_nat <$> idxs).
        { exact Hsorted. }
        clear -HF. induction HF as [|i q idxs child (q' & _ & ->) _ IHF];
          [reflexivity|].
        rewrite !fmap_cons, IHF, bk_distance_set_distance. reflexivity.
      * assert (Hsub : forall i, i ∈ idxs -> (1 <= i <= MAX_DISTANCE)%nat)
          by exact Hidxs.
        clear -HF Hsub. revert Hsub.
        induction HF as [|i q idxs' child' (q' & Hb & ->) _ IHF]; intros Hsub;
          [constructor|].
        constructor.
        -- rewrite bk_distance_set_distance, bk_keys_set_distance, bk_wf_set_distance.
           pose proof (Hsub i ltac:(left)) as Hi. unfold MAX_DISTANCE in Hi.
           split; [lia|]. split; [|apply Hb].
           apply Forall_forall. intros x Hx.
           pose proof (elem_of_submseteq _ _ _ Hx (built_sub _ _ _ Hb)) as Hxb.
           apply elem_of_reverse, bucket_elem in Hxb as [Hxb _].
           now apply dist_index_eq.
        -- apply IHF. intros j Hj. apply Hsub. now right.
    + rewrite bk_keys_tree. apply submseteq_skip.
      etransitivity; [|apply (buckets_submseteq rootkey idxs)].
      * apply concat_submseteq. eapply Forall2_impl; [exact HF|].
        intros i q (q' & Hb & ->). simpl. rewrite bk_keys_set_distance.
        etransitivity; [apply (built_sub _ _ _ Hb)|].
        apply Permutation_submseteq, reverse_Permutation.
      * exact Hnd.
    + intros x Hx. rewrite bk_keys_tree.
      destruct (decide (x = rootkey)) as [->|Hxr]; [left|right].
      apply elem_of_cons in Hx as [->|Hx]; [congruence|].
      assert (Hxok : bkey_ok x).
      { rewrite Forall_forall in Hrest. now apply Hrest. }
      pose proof (dist_index_le rootkey x Hroot Hxok) as Hle.
      assert (Hd0 : dist_index rootkey x <> 0%nat).
      { intros H0. apply Hxr. now apply (dist_index_0 rootkey x Hroot Hxok). }
      assert (Hxb : x ∈ bucket rootkey rest (dist_index rootkey x))
        by now apply bucket_elem.
      pose proof (Hin (dist_index rootkey x) x ltac:(lia) Hxb) as Hi.
      clear -HF Hi Hxb. revert Hi.
      induction HF as [|i q idxs' child' (q' & Hb & ->) _ IHF]; intros Hi;
        [inversion Hi|].
      rewrite fmap_cons. cbn [concat]. apply elem_of_app.
      apply elem_of_cons in Hi as [<-|Hi]; [left | right; now apply IHF].
      rewrite bk_keys_set_distance. apply (built_all _ _ _ Hb).
      now apply elem_of_reverse.
    + rewrite bk_leaves_tree. apply Forall_concat.
      clear -HF. induction HF as [|i q idxs' child' (q' & Hb & ->) _ IHF];
        [constructor|].
      rewrite fmap_cons. constructor; [|assumption].
      rewrite bk_leaves_set_distance. apply (built_leaves _ _ _ Hb).
    + cbn [bk_is_leaf]. simpl length. symmetry. apply orb_false_iff.
      split; apply Nat.leb_gt; lia.
Qed.

(** ** Queries *)

(** The keys of [l] within distance [maxd] of [ref], in the order of [l]. *)
Definition hits (ref : bkey_t) (maxd : Z) (l : list bkey_t) : list bkey_t :=
  filter (fun x => distance ref x <= maxd) l.

Lemma addkey_keys b k : buf_keys (addkey b k) = buf_keys b ++ [k].
Proof. reflexivity. Qed.

Lemma scan_keys_cons b k keys ref maxd :
  scan_keys b (k :: keys) ref maxd =
  scan_keys (if distance ref k <=? maxd then addkey b k else b) keys ref maxd.
Proof. reflexivity. Qed.

Lemma hits_cons ref maxd k l :
  hits ref maxd (k :: l) =
  if distance ref k <=? maxd then k :: hits ref maxd l else hits ref maxd l.
Proof.
  unfold hits. rewrite filter_cons.
  destruct (Z.leb_spec (distance ref k) maxd).
  - now rewrite decide_True.
  - rewrite decide_False by lia. reflexivity.
Qed.

Lemma scan_keys_keys keys : forall b ref maxd,
  buf_keys (scan_keys b keys ref maxd) = buf_keys b ++ hits ref maxd keys.
Proof.
  induction keys as [|k keys IH]; intros b ref maxd.
  - unfold scan_keys, hits. simpl. now rewrite app_nil_r.
  - rewrite scan_keys_cons, IH, hits_cons.
    generalize (distance ref k <=? maxd). intros [|]; [|reflexivity].
    rewrite addkey_keys, <- app_assoc. reflexivity.
Qed.



Lemma query_linear_keys b keys max_linear ref maxd :
  buf_keys (query_linear b (mktree_linear keys max_linear) ref maxd).1 =
  buf_keys b ++ hits ref maxd keys.
Proof.
  unfold query_linear, mktree_linear. simpl.
  rewrite take_ge by lia. apply scan_keys_keys.
Qed.

(** *** Which children a BK query visits *)

(** Querying the trees of [l] one after the other. *)
Definition query_each (query : buf -> bktree -> buf * nat) (l : list bktree)
    (st : buf * nat) : buf * nat :=
  fold_left (fun st q => let '(b', n) := query st.1 q in (b', (st.2 + n)%nat)) l st.

(** A child's distance [c] is within [maxd] of [d]. *)
Definition in_reach (maxd d : Z) (q : bktree) : Prop :=
  d - maxd <= bk_distance q <= d + maxd.

Global Instance in_reach_dec maxd d q : Decision (in_reach maxd d q).
Proof. unfold in_reach. apply _. Defined.

(** Adding [maxd] to the child's distance does not wrap around. *)
Definition fits (maxd : Z) (q : bktree) : Prop :=
  0 <= bk_distance q /\ bk_distance q + maxd < wB.

Section Visit.
Variable query : buf -> bktree -> buf * nat.
Variables maxd d : Z.
Hypothesis Hmaxd : 0 <= maxd.
Hypothesis Hd : 0 <= d.
Hypothesis Hsum : maxd + d < wB.

Lemma add32_small a b : 0 <= a -> 0 <= b -> a + b < wB -> add32 a b = a + b.
Proof. intros. unfold add32. apply Z.mod_small. lia. Qed.

Lemma bk_visit_none p :
  Forall (fun q => maxd + d < bk_distance q) p ->
  filter (in_reach maxd d) p = [].
Proof.
  intros H. induction H as [|q p Hq _ IH]; [reflexivity|].
  rewrite filter_cons_False; [exact IH|]. unfold in_reach. lia.
Qed.

Lemma sorted_head_lt q p :
  StronglySorted Z.lt (bk_distance <$> q :: p) ->
  Forall (fun q' => bk_distance q < bk_distance q') p.
Proof.
  rewrite fmap_cons. intros H. apply StronglySorted_inv in H as [_ H].
  rewrite Forall_forall in H. apply Forall_forall. intros q' Hq'.
  apply H. now apply list_elem_of_fmap_2.
Qed.

Lemma bk_visit_filter p : forall b nc,
  StronglySorted Z.lt (bk_distance <$> p) ->
  Forall (fun q => d - maxd <= bk_distance q) p ->
  bk_visit query maxd d p b nc =
  query_each query (filter (in_reach maxd d) p) (b, nc).
Proof using Hmaxd Hd Hsum.
  induction p as [|q p IH]; intros b nc Hs Hlow; [reflexivity|].
  pose proof (sorted_head_lt q p Hs) as Hlt.
  inversion Hlow as [|? ? Hq Hlow']; subst.
  rewrite fmap_cons in Hs. apply StronglySorted_inv in Hs as [Hs _].
  cbn [bk_visit]. rewrite add32_small by assumption.
  destruct (Z.leb_spec (bk_distance q) (maxd + d)) as [Hle|Hgt].
  - rewrite filter_cons_True by (unfold in_reach; lia).
    unfold query_each at 1. cbn [fold_left fst snd].
    destruct (query b q) as [b' n]. now apply IH.
  - rewrite (bk_visit_none (q :: p)); [reflexivity|].
    constructor; [lia|]. eapply Forall_impl; [exact Hlt|].
    intros q' Hq'. simpl in Hq'. lia.
Qed.

(** The two loops of [query_bk] visit, in order, exactly the children
    whose distance lies between [d - maxd] and [d + maxd]. *)
Lemma bk_skip_visit_filter p : forall b nc,
  StronglySorted Z.lt (bk_distance <$> p) ->
  Forall (fits maxd) p ->
  bk_visit query maxd d (bk_skip maxd d p) b nc =
  query_each query (filter (in_reach maxd d) p) (b, nc).
Proof using Hmaxd Hd Hsum.
  induction p as [|q p IH]; intros b nc Hs Hfit; [reflexivity|].
  pose proof (sorted_head_lt q p Hs) as Hlt.
  inversion Hfit as [|? ? [Hq0 Hq] Hfit']; subst.
  cbn [bk_skip]. rewrite add32_small by lia.
  destruct (Z.ltb_spec (bk_distance q + maxd) d) as [Hskip|Hstay].
  - rewrite filter_cons_False by (unfold in_reach; lia).
    apply IH; [|assumption].
    rewrite fmap_cons in Hs. now apply StronglySorted_inv in Hs as [Hs _].
  - apply bk_visit_filter; [assumption|].
    constructor; [lia|]. eapply Forall_impl; [exact Hlt|].
    intros q' Hq'. simpl in Hq'. lia.
Qed.
End Visit.


(** *** A BK query returns the stored keys within reach *)




(** ** Building a VP-tree *)

(** The keys a query can reach in a VP-tree, in traversal order: the near
    subtree, the vantage, the far subtree. *)
Fixpoint vp_keys (t : vptree) : list bkey_t :=
  match t with
  | VpLinear n keys => take n keys
  | VpTree _ vantage near far =>
      match near with Some s => vp_keys s | None => [] end ++
      vantage ::
      match far with Some s => vp_keys s | None => [] end
  end.

Fixpoint vp_leaves (t : vptree) : list (list bkey_t) :=
  match t with
  | VpLinear n keys => [take n keys]
  | VpTree _ _ near far =>
      match near with Some s => vp_leaves s | None => [] end ++
      match far with Some s => vp_leaves s | None => [] end
  end.

(** The vantage points of the internal nodes. *)
Fixpoint vp_vantages (t : vptree) : list bkey_t :=
  match t with
  | VpLinear _ _ => []
  | VpTree _ vantage near far =>
      match near with Some s => vp_vantages s | None => [] end ++
      vantage ::
      match far with Some s => vp_vantages s | None => [] end
  end.

Definition vp_is_leaf (t : vptree) : bool :=
  match t with
  | VpLinear _ _ => true
  | VpTree _ _ _ _ => false
  end.

(** The shape [mktree_vp] gives a tree: the near subtree holds keys
    within the threshold of the vantage, the far subtree keys beyond it. *)
Fixpoint vp_wf (t : vptree) : Prop :=
  match t with
  | VpLinear n keys => n = length keys
  | VpTree thr vantage near far =>
      0 <= thr <= 32 /\
      match near with
      | Some s => Forall (fun x => distance vantage x <= thr) (vp_keys s) /\ vp_wf s
      | None => True
      end /\
      match far with
      | Some s => Forall (fun x => thr < distance vantage x) (vp_keys s) /\ vp_wf s
      | None => True
      end
  end.

(** Induction over a VP-tree and its subtrees. *)
Lemma vptree_rect' (P : vptree -> Prop) :
  (forall n keys, P (VpLinear n keys)) ->
  (forall thr vantage near far,
     (forall s, near = Some s -> P s) -> (forall s, far = Some s -> P s) ->
     P (VpTree thr vantage near far)) ->
  forall t, P t.
Proof.
  intros Hleaf Hnode. fix IH 1. intros [n keys|thr vantage near far].
  - apply Hleaf.
  - apply Hnode.
    + destruct near as [s|]; intros s' E; [|discriminate].
      injection E as <-. apply IH.
    + destruct far as [s|]; intros s' E; [|discriminate].
      injection E as <-. apply IH.
Qed.

(** *** Choice of the threshold *)

Section Threshold.
Local Open Scope nat_scope.
Variable dcnt : list nat.
Variable median : nat.

Lemma vp_scan_spec steps : forall k,
  let r := vp_scan dcnt median k steps in
  k <= r <= k + steps /\
  (forall j, k <= j < r -> dcnt !!! j <= median) /\
  (r < k + steps -> median < dcnt !!! r).
Proof.
  induction steps as [|steps IH]; intros k; cbn [vp_scan].
  - cbv zeta. split; [lia|]. split; intros; lia.
  - destruct (Nat.ltb_spec median (dcnt !!! k)) as [Hlt|Hge].
    + cbv zeta. split; [lia|]. split; [intros; lia | intros; assumption].
    + specialize (IH (S k)). cbv zeta in IH |- *.
      destruct IH as (Hr & Hbelow & Habove).
      split; [lia|]. split.
      * intros j Hj. destruct (decide (j = k)) as [->|Hne]; [assumption|].
        apply Hbelow. lia.
      * intros Hr'. apply Habove. lia.
Qed.
End Threshold.

(** [k] is the smallest distance value whose cumulative count exceeds
    [median]. *)
Definition least_above (dcnt : list nat) (median : nat) (k : nat) : Prop :=
  (k <= MAX_DISTANCE)%nat /\ (median < dcnt !!! k)%nat /\
  forall j, (j < k)%nat -> (dcnt !!! j <= median)%nat.

(** A cumulative histogram of [n] keys: 33 entries, nondecreasing, the
    last one [n]. *)
Definition cumulative (dcnt : list nat) (n : nat) : Prop :=
  length dcnt = S MAX_DISTANCE /\
  (forall i j, (i <= j <= MAX_DISTANCE)%nat -> (dcnt !!! i <= dcnt !!! j)%nat) /\
  dcnt !!! MAX_DISTANCE = n.

Lemma dcnt_read_in dcnt i :
  (i < length dcnt)%nat -> dcnt_read dcnt i = Done (dcnt !!! i).
Proof.
  intros Hi. unfold dcnt_read.
  destruct (lookup_lt_is_Some_2 dcnt i Hi) as [v Hv].
  rewrite Hv. now rewrite (list_lookup_total_correct _ _ _ Hv).
Qed.

Lemma dcnt_read_out dcnt i :
  (length dcnt <= i)%nat -> dcnt_read dcnt i = Abort ReadOutOfBounds.
Proof.
  intros Hi. unfold dcnt_read. now rewrite lookup_ge_None_2.
Qed.

Section ThresholdChoice.
Local Open Scope nat_scope.
Variable dcnt : list nat.
Variable n : nat.
Hypothesis Hcum : cumulative dcnt n.

Lemma vp_median_bounds : dcnt !!! 0 <= vp_median dcnt n <= n.
Proof using Hcum.
  destruct Hcum as (_ & Hmono & Hlast).
  pose proof (Hmono 0 MAX_DISTANCE ltac:(unfold MAX_DISTANCE; lia)) as H0.
  rewrite Hlast in H0. unfold vp_median.
  pose proof (Nat.Div0.div_le_upper_bound (n - dcnt !!! 0) 2 (n - dcnt !!! 0)
                ltac:(lia)).
  lia.
Qed.

Lemma vp_median_lt : dcnt !!! 0 < n -> vp_median dcnt n < n.
Proof using Hcum.
  intros H. unfold vp_median.
  pose proof (Nat.div_lt (n - dcnt !!! 0) 2 ltac:(lia) ltac:(lia)). lia.
Qed.

(** Some remaining key differs from the vantage: the loop stops at the
    least distance above the median, inside the histogram. *)
Lemma vp_scan_least :
  dcnt !!! 0 < n ->
  least_above dcnt (vp_median dcnt n)
    (vp_scan dcnt (vp_median dcnt n) 1 MAX_DISTANCE) /\
  1 <= vp_scan dcnt (vp_median dcnt n) 1 MAX_DISTANCE.
Proof using Hcum.
  intros Hlt. pose proof (vp_median_lt Hlt) as Hmed.
  pose proof vp_median_bounds as Hmb.
  destruct Hcum as (_ & Hmono & Hlast).
  pose proof (vp_scan_spec dcnt (vp_median dcnt n) MAX_DISTANCE 1) as Hs.
  cbv zeta in Hs. destruct Hs as (Hr & Hbelow & Habove).
  set (r := vp_scan dcnt (vp_median dcnt n) 1 MAX_DISTANCE) in *.
  clearbody r.
  assert (Hr32 : r <= MAX_DISTANCE).
  { destruct (Nat.le_gt_cases r MAX_DISTANCE) as [|Hgt]; [assumption|].
    specialize (Hbelow MAX_DISTANCE ltac:(unfold MAX_DISTANCE in *; lia)). lia. }
  split; [|lia]. split; [assumption|]. split; [apply Habove; lia|].
  intros j Hj. destruct j as [|j]; [lia|]. apply Hbelow. lia.
Qed.

(** Every remaining key equals the vantage: the loop runs off the end. *)
Lemma vp_scan_off_end :
  dcnt !!! 0 = n -> vp_scan dcnt (vp_median dcnt n) 1 MAX_DISTANCE = S MAX_DISTANCE.
Proof using Hcum.
  intros H0. destruct Hcum as (_ & Hmono & Hlast).
  assert (Hmed : vp_median dcnt n = n).
  { unfold vp_median. rewrite H0, Nat.sub_diag. simpl. lia. }
  rewrite Hmed.
  pose proof (vp_scan_spec dcnt n MAX_DISTANCE 1) as Hs.
  cbv zeta in Hs. destruct Hs as (Hr & _ & Habove).
  set (r := vp_scan dcnt n 1 MAX_DISTANCE) in *. clearbody r.
  destruct (Nat.lt_ge_cases r (S MAX_DISTANCE)) as [Hlt|Hge]; [|lia].
  specialize (Habove ltac:(lia)).
  pose proof (Hmono r MAX_DISTANCE ltac:(lia)). lia.
Qed.
End ThresholdChoice.

(** The threshold rule in the words of the specification: the smallest
    distance value whose cumulative count exceeds the median, less one
    when that value is not 1 and the split one lower is no worse. *)
Definition threshold_rule (dcnt : list nat) (n : nat) (k : nat) : Prop :=
  exists k0,
    least_above dcnt (vp_median dcnt n) k0 /\
    k = if decide (k0 <> 1 /\
                   vp_median dcnt n - dcnt !!! (k0 - 1) <=
                   dcnt !!! k0 - vp_median dcnt n)%nat
        then (k0 - 1)%nat else k0.

Lemma threshold_rule_unique dcnt n k0 k0' :
  least_above dcnt (vp_median dcnt n) k0 ->
  least_above dcnt (vp_median dcnt n) k0' -> k0 = k0'.
Proof.
  intros (_ & Ha & Hb) (_ & Ha' & Hb').
  destruct (Nat.lt_trichotomy k0 k0') as [H|[H|H]]; [|assumption|].
  - specialize (Hb' k0 H). lia.
  - specialize (Hb k0' H). lia.
Qed.

Section ThresholdResult.
Local Open Scope nat_scope.
Variable dcnt : list nat.
Variable n : nat.
Hypothesis Hcum : cumulative dcnt n.

Lemma vp_threshold_rule :
  dcnt !!! 0 < n ->
  exists k, vp_threshold dcnt n = Done k /\ threshold_rule dcnt n k /\
            1 <= k <= MAX_DISTANCE.
Proof using Hcum.
  intros Hlt. destruct (vp_scan_least dcnt n Hcum Hlt) as [Hleast H1].
  pose proof Hleast as (Hk32 & Habove & Hbelow).
  unfold vp_threshold. cbv zeta.
  set (k0 := vp_scan dcnt (vp_median dcnt n) 1 MAX_DISTANCE) in *. clearbody k0.
  set (median := vp_median dcnt n) in *.
  destruct Hcum as (Hlen & _ & _).
  destruct (Nat.eqb_spec k0 1) as [->|Hne]; cbn [negb].
  - exists 1. split; [reflexivity|]. split; [|unfold MAX_DISTANCE; lia].
    exists 1. split; [assumption|]. rewrite decide_False by lia. reflexivity.
  - rewrite !dcnt_read_in by lia. cbn [obind].
    destruct (Nat.leb_spec (median - dcnt !!! (k0 - 1)) (dcnt !!! k0 - median))
      as [Hle|Hgt].
    + exists (k0 - 1). split; [reflexivity|]. split; [|lia].
      exists k0. split; [assumption|]. rewrite decide_True by (split; lia).
      reflexivity.
    + exists k0. split; [reflexivity|]. split; [|lia].
      exists k0. split; [assumption|]. rewrite decide_False by lia.
      reflexivity.
Qed.

(** The two differences of the tie-break do not underflow. *)
Lemma vp_tiebreak_no_underflow k0 :
  least_above dcnt (vp_median dcnt n) k0 -> k0 <> 1 ->
  dcnt !!! (k0 - 1) <= vp_median dcnt n < dcnt !!! k0.
Proof using Hcum.
  intros (_ & Ha & Hb) Hne. split; [|assumption].
  destruct k0 as [|k0].
  - simpl. pose proof (vp_median_bounds dcnt n Hcum). lia.
  - apply Hb. lia.
Qed.

Lemma vp_threshold_off_end :
  dcnt !!! 0 = n -> vp_threshold dcnt n = Abort ReadOutOfBounds.
Proof using Hcum.
  intros H0. unfold vp_threshold. cbv zeta.
  rewrite (vp_scan_off_end dcnt n Hcum H0).
  destruct Hcum as (Hlen & _ & _).
  cbn [Nat.eqb negb MAX_DISTANCE].
  rewrite dcnt_read_in by (unfold MAX_DISTANCE in *; lia). cbn [obind].
  rewrite dcnt_read_out by (unfold MAX_DISTANCE in *; lia). reflexivity.
Qed.

Lemma no_least_above_when_all_equal :
  dcnt !!! 0 = n -> forall k0, ~ least_above dcnt (vp_median dcnt n) k0.
Proof using Hcum.
  intros H0 k0 (Hk & Ha & _). destruct Hcum as (_ & Hmono & Hlast).
  assert (Hmed : vp_median dcnt n = n).
  { unfold vp_median. rewrite H0, Nat.sub_diag. simpl. lia. }
  pose proof (Hmono k0 MAX_DISTANCE ltac:(lia)). lia.
Qed.
End ThresholdResult.

(** The histogram of the build is cumulative. *)
Lemma dcnt_cumulative_is_cumulative rootkey keys :
  Forall (fun k => (dist_index rootkey k <= MAX_DISTANCE)%nat) keys ->
  cumulative (dcnt_cumulative rootkey keys).1 (length keys).
Proof.
  intros Hidx. split; [apply dcnt_cumulative_length|]. split.
  - intros i j Hij.
    rewrite !dcnt_cumulative_total_lookup by lia.
    apply upto_length_mono. lia.
  - rewrite dcnt_cumulative_total_lookup by lia.
    now rewrite upto_all.
Qed.

(** *** The near and far sets *)

(** The keys other than the vantage within distance [k] of it, and those
    farther away, in input order. *)
Definition vp_nears (rootkey : bkey_t) (k : Z) (l : list bkey_t) : list bkey_t :=
  filter (fun x => x <> rootkey /\ distance rootkey x <= k) l.

Definition vp_fars (rootkey : bkey_t) (k : Z) (l : list bkey_t) : list bkey_t :=
  filter (fun x => x <> rootkey /\ ~ distance rootkey x <= k) l.

Section Partition.
Variable rootkey : bkey_t.
Variable k : Z.
Variable keys : list bkey_t.

Let nnear : nat := length (vp_nears rootkey k keys).
Let nfar : nat := length (vp_fars rootkey k keys).

Lemma vp_nears_snoc l x :
  vp_nears rootkey k (l ++ [x]) =
  vp_nears rootkey k l ++
    (if x =? rootkey then [] else if distance rootkey x <=? k then [x] else []).
Proof.
  unfold vp_nears. rewrite list.filter_app. f_equal.
  rewrite filter_cons, filter_nil.
  destruct (Z.eqb_spec x rootkey) as [E|E].
  - rewrite decide_False by tauto. reflexivity.
  - destruct (Z.leb_spec (distance rootkey x) k).
    + rewrite decide_True by tauto. reflexivity.
    + rewrite decide_False by (intros [_ ?]; lia). reflexivity.
Qed.

Lemma vp_fars_snoc l x :
  vp_fars rootkey k (l ++ [x]) =
  vp_fars rootkey k l ++
    (if x =? rootkey then [] else if distance rootkey x <=? k then [] else [x]).
Proof.
  unfold vp_fars. rewrite list.filter_app. f_equal.
  rewrite filter_cons, filter_nil.
  destruct (Z.eqb_spec x rootkey) as [E|E].
  - rewrite decide_False by tauto. reflexivity.
  - destruct (Z.leb_spec (distance rootkey x) k).
    + rewrite decide_False by tauto. reflexivity.
    + rewrite decide_True by (split; [assumption | lia]). reflexivity.
Qed.

(** What the sorting loop has established after the keys [done]. *)
Definition parted (done : list bkey_t) (st : list bkey_t * nat * nat) : Prop :=
  let '(tmp, inear, ifar) := st in
  length tmp = (nnear + nfar)%nat /\
  inear = length (vp_nears rootkey k done) /\
  ifar = (nnear + length (vp_fars rootkey k done))%nat /\
  take inear tmp = vp_nears rootkey k done /\
  take (length (vp_fars rootkey k done)) (drop nnear tmp) = vp_fars rootkey k done.

Lemma parted_step done x rest st :
  keys = (done ++ [x]) ++ rest ->
  parted done st -> parted (done ++ [x]) (vp_place rootkey k st x).
Proof.
  intros Hkeys. destruct st as [[tmp inear] ifar].
  intros (Hlen & Hin & Hif & Hn & Hf).
  assert (Hnle : (length (vp_nears rootkey k (done ++ [x])) <= nnear)%nat).
  { unfold nnear. rewrite Hkeys. unfold vp_nears at 2.
    rewrite list.filter_app, length_app. fold (vp_nears rootkey k (done ++ [x])). lia. }
  assert (Hfle : (length (vp_fars rootkey k (done ++ [x])) <= nfar)%nat).
  { unfold nfar. rewrite Hkeys. unfold vp_fars at 2.
    rewrite list.filter_app, length_app. fold (vp_fars rootkey k (done ++ [x])). lia. }
  rewrite vp_nears_snoc, length_app in Hnle.
  rewrite vp_fars_snoc, length_app in Hfle.
  unfold vp_place, parted. rewrite vp_nears_snoc, vp_fars_snoc.
  destruct (x =? rootkey).
  - rewrite !app_nil_r. repeat split; assumption.
  - destruct (distance rootkey x <=? k).
    + rewrite app_nil_r. simpl in Hnle. subst inear.
      rewrite length_insert, length_app. simpl.
      repeat split; try assumption; try lia.
      * rewrite (take_S_r _ _ x) by (apply list_lookup_insert_eq; lia).
        rewrite take_insert_ge by lia. now rewrite Hn.
      * rewrite drop_insert_lt by lia. assumption.
    + rewrite app_nil_r. simpl in Hfle. subst ifar.
      rewrite length_insert, length_app. simpl.
      repeat split; try assumption; try lia.
      * rewrite take_insert_ge by lia. assumption.
      * rewrite drop_insert_ge by lia.
        replace (nnear + length (vp_fars rootkey k done) - nnear)%nat
          with (length (vp_fars rootkey k done)) by lia.
        rewrite Nat.add_1_r.
        rewrite (take_S_r _ _ x).
        -- rewrite take_insert_ge by lia. now rewrite Hf.
        -- apply list_lookup_insert_eq. rewrite length_drop. lia.
Qed.

Lemma parted_fold done rest :
  keys = done ++ rest ->
  parted done (fold_left (vp_place rootkey k) done
                 (replicate (nnear + nfar) 0, 0%nat, nnear)).
Proof.
  revert rest. induction done as [|x done IH] using rev_ind; intros rest Hk.
  - unfold parted. simpl. rewrite length_replicate, Nat.add_0_r.
    repeat split; reflexivity.
  - rewrite fold_left_app. cbn [fold_left].
    apply parted_step with rest; [assumption|].
    apply IH with (x :: rest). now rewrite <- app_assoc in Hk.
Qed.

(** The loop fills [tmp] with the near set followed by the far set and
    leaves both indices at the ends of their ranges. *)
Lemma vp_partition_spec :
  vp_partition rootkey k keys nnear nfar =
  (vp_nears rootkey k keys ++ vp_fars rootkey k keys, nnear, (nnear + nfar)%nat).
Proof.
  unfold vp_partition.
  pose proof (parted_fold keys [] (eq_sym (app_nil_r keys))) as H.
  destruct (fold_left _ _ _) as [[tmp inear] ifar].
  destruct H as (Hlen & Hin & Hif & Hn & Hf).
  fold nnear in Hin, Hn. fold nfar in Hif, Hf. subst inear ifar.
  f_equal. f_equal.
  rewrite <- (take_drop nnear tmp). rewrite Hn. f_equal.
  rewrite <- Hf. symmetry. apply take_ge. rewrite length_drop. lia.
Qed.
End Partition.

(** The sizes of the two sets as the build reads them off the histogram. *)
Lemma vp_counts rootkey keys k :
  bkey_ok rootkey -> Forall bkey_ok keys ->
  length (upto rootkey keys k) =
    (length (upto rootkey keys 0) +
     length (vp_nears rootkey (Z.of_nat k) keys))%nat /\
  length keys =
    (length (upto rootkey keys k) +
     length (vp_fars rootkey (Z.of_nat k) keys))%nat.
Proof.
  intros Hr Hok. unfold upto, vp_nears, vp_fars.
  induction Hok as [|x keys Hx _ [IH1 IH2]]; [split; reflexivity|].
  rewrite !filter_cons.
  pose proof (dist_index_0 rootkey x Hr Hx) as H0.
  pose proof (distance_lt_64 rootkey x) as Hd.
  assert (Hle : (dist_index rootkey x <= k)%nat <-> distance rootkey x <= Z.of_nat k)
    by (unfold dist_index; lia).
  destruct (decide (x = rootkey)) as [->|Hne].
  - assert (Hi0 : dist_index rootkey rootkey = 0%nat) by now apply H0.
    rewrite Hi0.
    rewrite !(decide_True (P := (0 <= _)%nat)) by lia.
    rewrite !(decide_False (P := (rootkey <> rootkey /\ _))) by tauto.
    simpl. lia.
  - assert (Hi0 : dist_index rootkey x <> 0%nat) by tauto.
    rewrite (decide_False (P := (dist_index rootkey x <= 0)%nat)) by lia.
    destruct (decide (dist_index rootkey x <= k)%nat) as [Hk|Hk].
    + rewrite decide_True by tauto. rewrite decide_False by tauto. simpl. lia.
    + rewrite decide_False by tauto. rewrite decide_True by tauto. simpl. lia.
Qed.

(** *** What [mktree_vp] builds *)

Record vp_built (max_linear : nat) (keys : list bkey_t) (t : vptree) : Prop := {
  vbuilt_wf : vp_wf t;
  vbuilt_sub : vp_keys t ⊆+ keys;
  vbuilt_all : forall x, x ∈ keys -> x ∈ vp_keys t;
  vbuilt_leaves : Forall (leaf_size_ok max_linear) (vp_leaves t);
  vbuilt_is_leaf :
    vp_is_leaf t = (length keys <=? max_linear)%nat || (length keys <=? 1)%nat
}.

(** A subtree pointer: null for an empty range, a built tree otherwise. *)
Definition vp_sub_built (max_linear : nat) (l : list bkey_t) (o : option vptree)
  : Prop :=
  match o with
  | None => l = []
  | Some t => l <> [] /\ vp_built max_linear l t
  end.

Definition vp_sub_keys (o : option vptree) : list bkey_t :=
  match o with Some s => vp_keys s | None => [] end.

Lemma vp_sub_keys_sub ml l o : vp_sub_built ml l o -> vp_sub_keys o ⊆+ l.
Proof.
  destruct o as [t|]; simpl.
  - intros [_ H]. apply (vbuilt_sub _ _ _ H).
  - intros _. apply submseteq_nil_l.
Qed.

Lemma vp_sub_keys_all ml l o x : vp_sub_built ml l o -> x ∈ l -> x ∈ vp_sub_keys o.
Proof.
  destruct o as [t|]; simpl.
  - intros [_ H]. apply (vbuilt_all _ _ _ H).
  - intros -> H. inversion H.
Qed.

Lemma vp_nears_fars_sub rootkey k keys :
  vp_nears rootkey k keys ++ vp_fars rootkey k keys ⊆+ keys.
Proof.
  unfold vp_nears, vp_fars. induction keys as [|x keys IH]; [reflexivity|].
  rewrite !filter_cons.
  destruct (decide (x <> rootkey /\ distance rootkey x <= k)) as [H1|H1].
  - rewrite decide_False by tauto. simpl. now apply submseteq_skip.
  - destruct (decide (x <> rootkey /\ ~ distance rootkey x <= k)) as [H2|H2].
    + rewrite <- Permutation_middle. now apply submseteq_skip.
    + now apply submseteq_cons.
Qed.

Lemma vp_nears_elem rootkey k keys x :
  x ∈ vp_nears rootkey k keys <->
  (x <> rootkey /\ distance rootkey x <= k) /\ x ∈ keys.
Proof.
  unfold vp_nears.
  exact (list_elem_of_filter
           (fun x => x <> rootkey /\ distance rootkey x <= k) keys x).
Qed.

Lemma vp_fars_elem rootkey k keys x :
  x ∈ vp_fars rootkey k keys <->
  (x <> rootkey /\ ~ distance rootkey x <= k) /\ x ∈ keys.
Proof.
  unfold vp_fars.
  exact (list_elem_of_filter
           (fun x => x <> rootkey /\ ~ distance rootkey x <= k) keys x).
Qed.

Lemma not_NoDup_sub {A} (l k : list A) : l ⊆+ k -> ~ NoDup l -> ~ NoDup k.
Proof.
  intros Hsub Hl Hk. apply Hl. apply submseteq_Permutation in Hsub as [k' Hk'].
  rewrite Hk' in Hk. now apply NoDup_app in Hk as [? _].
Qed.

(** A subtree is built from a range by the code
    [if (n) sub = mktree_vp(range, n, max_linear);] *)
Lemma vp_sub_build (build : list bkey_t -> outcome vptree) ml (l : list bkey_t) :
  (l <> [] ->
   (exists t, build l = Done t /\ vp_built ml l t) \/
   (build l = Abort ReadOutOfBounds /\ ~ NoDup l)) ->
  (exists o, (if (length l =? 0)%nat then Done None
              else t <-- build l ;; Done (Some t)) = Done o /\
             vp_sub_built ml l o) \/
  ((if (length l =? 0)%nat then Done None
    else t <-- build l ;; Done (Some t)) = Abort ReadOutOfBounds /\ ~ NoDup l).
Proof.
  intros H. destruct (Nat.eqb_spec (length l) 0) as [E|E].
  - left. exists None. split; [reflexivity|].
    destruct l; [reflexivity | discriminate].
  - assert (Hne : l <> []) by (intros ->; apply E; reflexivity).
    destruct (H Hne) as [(t & Ht & Hb)|[Ht Hd]]; rewrite Ht.
    + left. exists (Some t). split; [reflexivity|]. split; assumption.
    + right. split; [reflexivity | assumption].
Qed.

Lemma upto_cons rootkey x keys i :
  upto rootkey (x :: keys) i =
  if decide (dist_index rootkey x <= i)%nat then x :: upto rootkey keys i
  else upto rootkey keys i.
Proof.
  unfold upto.
  exact (filter_cons (fun k => (dist_index rootkey k <= i)%nat) x keys).
Qed.

Lemma upto_0_all_equal rootkey keys :
  bkey_ok rootkey -> Forall bkey_ok keys -> keys <> [] ->
  length (upto rootkey keys 0) = length keys -> rootkey ∈ keys.
Proof.
  intros Hr Hok Hne Hlen. destruct keys as [|x keys]; [congruence|].
  rewrite upto_cons in Hlen.
  inversion Hok as [|? ? Hx Hok']; subst.
  pose proof (upto_length_le rootkey keys 0).
  destruct (decide (dist_index rootkey x <= 0)%nat) as [H0|H0].
  - assert (E : dist_index rootkey x = 0%nat) by lia.
    apply (dist_index_0 rootkey x Hr Hx) in E. subst. left.
  - cbn [length] in Hlen. lia.
Qed.

(** [mktree_vp] on a non-empty range of keys either builds a tree, or
    reads past the histogram; the latter needs a repeated key. *)
Lemma mktree_vp_rec_cases fuel : forall keys max_linear,
  Forall bkey_ok keys -> keys <> [] -> (length keys <= fuel)%nat ->
  (exists t, mktree_vp_rec fuel keys max_linear = Done t /\
             vp_built max_linear keys t) \/
  (mktree_vp_rec fuel keys max_linear = Abort ReadOutOfBounds /\ ~ NoDup keys).
Proof.
  induction fuel as [|fuel IH]; intros keys ml Hok Hne Hlen.
  { destruct keys; [congruence | simpl in Hlen; lia]. }
  destruct keys as [|rootkey rest]; [congruence|]. clear Hne.
  cbn [mktree_vp_rec].
  match goal with
  | |- context [if ?c then Done (VpLinear _ _) else _] => destruct c eqn:Hleaf
  end.
  - (* leaf *)
    left. eexists. split; [reflexivity|].
    assert (Htake : take (length (rootkey :: rest)) (rootkey :: rest) = rootkey :: rest)
      by (apply take_ge; lia).
    split.
    + reflexivity.
    + cbn [vp_keys]. now rewrite Htake.
    + intros x Hx. cbn [vp_keys]. now rewrite Htake.
    + cbn [vp_leaves]. rewrite Htake. constructor; [|constructor].
      unfold leaf_size_ok. apply orb_true_iff in Hleaf.
      simpl length in *. destruct Hleaf as [H|H]; apply Nat.leb_le in H; lia.
    + cbn [vp_is_leaf]. now rewrite Hleaf.
  - (* internal node *)
    apply orb_false_iff in Hleaf as [Hml H1].
    apply Nat.leb_gt in Hml, H1. simpl length in Hml, H1, Hlen.
    inversion Hok as [|? ? Hroot Hrest]; subst.
    destruct (Nat.eqb_spec (length rest) 0) as [E|_]; [lia|].
    pose proof (Forall_dist_index rootkey rest Hroot Hrest) as Hidx.
    pose proof (dcnt_cumulative_total rootkey rest) as Ha.
    rewrite (upto_all rootkey rest MAX_DISTANCE Hidx) in Ha.
    pose proof (dcnt_cumulative_is_cumulative rootkey rest Hidx) as Hcum.
    pose proof (dcnt_cumulative_total_lookup rootkey rest) as Hlook.
    destruct (dcnt_cumulative rootkey rest) as [dcnt a] eqn:Ecum.
    simpl in Ha, Hcum, Hlook. subst a. rewrite Nat.eqb_refl. cbn [negb].
    destruct (Nat.eq_dec (dcnt !!! 0%nat) (length rest)) as [Hall|Hsome].
    { (* every remaining key equals the vantage *)
      right. rewrite (vp_threshold_off_end dcnt (length rest) Hcum Hall).
      split; [reflexivity|].
      rewrite Hlook in Hall by (unfold MAX_DISTANCE; lia).
      intros Hnd. apply NoDup_cons in Hnd as [Hnotin _]. apply Hnotin.
      apply upto_0_all_equal; try assumption. intros ->. simpl in H1. lia. }
    assert (Hlt : (dcnt !!! 0 < length rest)%nat).
    { destruct Hcum as (_ & Hmono & Hlast).
      pose proof (Hmono 0%nat MAX_DISTANCE ltac:(unfold MAX_DISTANCE; lia)). lia. }
    destruct (vp_threshold_rule dcnt (length rest) Hcum Hlt)
      as (k & Hk & _ & Hk1).
    rewrite Hk. cbn [obind].
    destruct (vp_counts rootkey rest k Hroot Hrest) as [Hcn Hcf].
    rewrite <- !Hlook in Hcn by (unfold MAX_DISTANCE in *; lia).
    rewrite <- !Hlook in Hcf by (unfold MAX_DISTANCE in *; lia).
    replace (dcnt !!! k - dcnt !!! 0)%nat
      with (length (vp_nears rootkey (Z.of_nat k) rest)) by lia.
    replace (length rest - dcnt !!! k)%nat
      with (length (vp_fars rootkey (Z.of_nat k) rest)) by lia.
    rewrite vp_partition_spec. rewrite !Nat.eqb_refl. cbn [negb].
    set (nears := vp_nears rootkey (Z.of_nat k) rest) in *.
    set (fars := vp_fars rootkey (Z.of_nat k) rest) in *.
    rewrite take_app_length, drop_app_length, firstn_all.
    pose proof (vp_nears_fars_sub rootkey (Z.of_nat k) rest) as Hsub.
    fold nears fars in Hsub.
    assert (Hnsub : nears ⊆+ rest).
    { etransitivity; [|exact Hsub]. now apply submseteq_inserts_r. }
    assert (Hfsub : fars ⊆+ rest).
    { etransitivity; [|exact Hsub]. now apply submseteq_inserts_l. }
    assert (Hnok : Forall bkey_ok nears).
    { apply Forall_forall. intros x Hx. rewrite Forall_forall in Hrest.
      apply Hrest. apply vp_nears_elem in Hx. tauto. }
    assert (Hfok : Forall bkey_ok fars).
    { apply Forall_forall. intros x Hx. rewrite Forall_forall in Hrest.
      apply Hrest. apply vp_fars_elem in Hx. tauto. }
    pose proof (submseteq_length _ _ Hnsub) as Hnlen.
    pose proof (submseteq_length _ _ Hfsub) as Hflen.
    pose proof (vp_nears_elem rootkey (Z.of_nat k) rest) as Hnelem.
    pose proof (vp_fars_elem rootkey (Z.of_nat k) rest) as Hfelem.
    fold nears in Hnelem. fold fars in Hfelem.
    clearbody nears fars. clear Ecum Hk Hcn Hcf Hlook Hcum.
    destruct (vp_sub_build (fun l => mktree_vp_rec fuel l ml) ml nears)
      as [(near & Hnear & Hnb)|[Hnear Hnd]].
    { intros Hne. apply IH; [assumption | assumption | lia]. }
    2:{ right. rewrite Hnear. split; [reflexivity|].
        apply not_NoDup_sub with nears; [|assumption].
        now apply submseteq_cons. }
    rewrite Hnear. cbn [obind].
    destruct (vp_sub_build (fun l => mktree_vp_rec fuel l ml) ml fars)
      as [(far & Hfar & Hfb)|[Hfar Hnd]].
    { intros Hne. apply IH; [assumption | assumption | lia]. }
    2:{ right. rewrite Hfar. split; [reflexivity|].
        apply not_NoDup_sub with fars; [|assumption].
        now apply submseteq_cons. }
    rewrite Hfar. cbn [obind].
    left. eexists. split; [reflexivity|].
    assert (Hkeys : vp_keys (VpTree (Z.of_nat k) rootkey near far) =
                    vp_sub_keys near ++ rootkey :: vp_sub_keys far)
      by reflexivity.
    pose proof (vp_sub_keys_sub ml nears near Hnb) as Hnk.
    pose proof (vp_sub_keys_sub ml fars far Hfb) as Hfk.
    split.
    + cbn [vp_wf]. unfold MAX_DISTANCE in Hk1. split; [lia|]. split.
      * destruct near as [s|]; [|trivial]. destruct Hnb as [_ Hnb].
        split; [|apply Hnb]. apply Forall_forall. intros x Hx.
        pose proof (elem_of_submseteq _ _ _ Hx Hnk) as Hx'.
        apply Hnelem in Hx'. tauto.
      * destruct far as [s|]; [|trivial]. destruct Hfb as [_ Hfb].
        split; [|apply Hfb]. apply Forall_forall. intros x Hx.
        pose proof (elem_of_submseteq _ _ _ Hx Hfk) as Hx'.
        apply Hfelem in Hx'. lia.
    + rewrite Hkeys. rewrite <- Permutation_middle. apply submseteq_skip.
      etransitivity; [|exact Hsub]. now apply submseteq_app.
    + intros x Hx. rewrite Hkeys. apply elem_of_app.
      destruct (decide (x = rootkey)) as [->|Hxr]; [right; left|].
      apply elem_of_cons in Hx as [->|Hx]; [congruence|].
      destruct (decide (distance rootkey x <= Z.of_nat k)) as [Hd|Hd].
      * left. apply (vp_sub_keys_all ml nears near x Hnb).
        apply Hnelem. tauto.
      * right. right. apply (vp_sub_keys_all ml fars far x Hfb).
        apply Hfelem. tauto.
    + cbn [vp_leaves]. apply Forall_app. split.
      * destruct near as [s|]; [|constructor]. destruct Hnb as [_ Hnb].
        apply Hnb.
      * destruct far as [s|]; [|constructor]. destruct Hfb as [_ Hfb].
        apply Hfb.
    + cbn [vp_is_leaf]. simpl length. symmetry. apply orb_false_iff.
      split; apply Nat.leb_gt; lia.
Qed.

(** *** Which parts of a VP node a query visits *)

(** Querying a subtree when the pointer is not null. *)
Definition query_vp_sub (o : option vptree) (ref : bkey_t) (maxd : Z)
    (st : buf * nat) : buf * nat :=
  match o with
  | Some t => let '(b', n) := query_vp st.1 t ref maxd in (b', (st.2 + n)%nat)
  | None => st
  end.

Lemma query_vp_node b thr vantage near far ref maxd :
  0 <= maxd -> 0 <= thr -> maxd + thr < wB -> distance vantage ref + maxd < wB ->
  query_vp b (VpTree thr vantage near far) ref maxd =
  let d := distance vantage ref in
  let st1 := if decide (d <= maxd + thr)
             then query_vp_sub near ref maxd (b, 1%nat) else (b, 1%nat) in
  let st2 := if decide (d <= maxd) then (addkey st1.1 vantage, st1.2) else st1 in
  if decide (d + maxd > thr) then query_vp_sub far ref maxd st2 else st2.
Proof.
  intros Hmaxd Hthr Hw1 Hw2. cbn [query_vp]. cbv zeta.
  pose proof (distance_lt_64 vantage ref) as Hd.
  generalize dependent (distance vantage ref). intros d Hw2 Hd.
  rewrite !add32_small by lia.
  destruct (Z.leb_spec d (maxd + thr)) as [Hn|Hn].
  - rewrite (decide_True (P := d <= maxd + thr)) by assumption.
    assert (Enear : match near with
                    | Some t => let '(b', n) := query_vp b t ref maxd in (b', (1 + n)%nat)
                    | None => (b, 1%nat)
                    end = query_vp_sub near ref maxd (b, 1%nat)).
    { destruct near as [t|]; [|reflexivity]. unfold query_vp_sub. cbn [fst snd].
      destruct (query_vp b t ref maxd). reflexivity. }
    rewrite Enear. destruct (query_vp_sub near ref maxd (b, 1%nat)) as [b1 n1].
    cbn [fst snd].
    destruct (Z.leb_spec d maxd) as [Hv|Hv].
    + rewrite (decide_True (P := d <= maxd)) by assumption.
      destruct (Z.ltb_spec thr (d + maxd)) as [Hf|Hf].
      * rewrite decide_True by lia. unfold query_vp_sub. cbn [fst snd].
        destruct far as [t|]; reflexivity.
      * rewrite decide_False by lia. reflexivity.
    + rewrite (decide_False (P := d <= maxd)) by lia.
      destruct (Z.ltb_spec thr (d + maxd)) as [Hf|Hf].
      * rewrite decide_True by lia. unfold query_vp_sub. cbn [fst snd].
        destruct far as [t|]; reflexivity.
      * rewrite decide_False by lia. reflexivity.
  - rewrite (decide_False (P := d <= maxd + thr)) by lia.
    rewrite (decide_False (P := d <= maxd)) by lia.
    destruct (Z.ltb_spec thr (d + maxd)) as [Hf|Hf].
    + rewrite decide_True by lia. unfold query_vp_sub. cbn [fst snd].
      destruct far as [t|]; reflexivity.
    + rewrite decide_False by lia. reflexivity.
Qed.

(** *** A VP query returns the stored keys within reach *)


(** ** The recursion budget does not matter *)

Lemma bk_children_mono (build build' : list bkey_t -> outcome bktree)
    tmp dcnt idx : forall child,
  (forall l t, build l = Done t -> build' l = Done t) ->
  bk_children build tmp dcnt idx = Done child ->
  bk_children build' tmp dcnt idx = Done child.
Proof.
  intros child Hb. revert child.
  induction idx as [|i idx IH]; intros child H; [exact H|].
  cbn [bk_children] in H |- *.
  destruct (dcnt !!! i - dcnt !!! (i - 1) =? 0)%nat; [now apply IH|].
  destruct (build _) as [q|e] eqn:Hq; [|discriminate].
  rewrite (Hb _ _ Hq). cbn [obind] in H |- *.
  destruct (bk_children build tmp dcnt idx) as [rest|e]; [|discriminate].
  rewrite (IH rest eq_refl). exact H.
Qed.

Lemma mktree_bk_rec_mono fuel : forall keys max_linear t,
  mktree_bk_rec fuel keys max_linear = Done t ->
  mktree_bk_rec (S fuel) keys max_linear = Done t.
Proof.
  induction fuel as [|fuel IH]; intros keys ml t H; [discriminate|].
  remember (S fuel) as fuel1 eqn:E.
  rewrite E in H at 1. cbn [mktree_bk_rec] in H |- *.
  destruct keys as [|rootkey rest]; [discriminate|].
  destruct ((length (rootkey :: rest) <=? ml)%nat
            || (length (rootkey :: rest) <=? 1)%nat); [exact H|].
  destruct (length rest =? 0)%nat; [exact H|].
  destruct (dcnt_cumulative rootkey rest) as [dcnt a].
  destruct (negb (a =? length rest)%nat); [discriminate|].
  destruct (bk_children (fun ks => mktree_bk_rec fuel ks ml) _ _ _)
    as [child|e] eqn:Hc; [|discriminate].
  pose proof (bk_children_mono _ (fun ks => mktree_bk_rec fuel1 ks ml) _ _ _ child
                (fun l q Hq => IH l ml q Hq) Hc) as Hc'.
  rewrite Hc'. exact H.
Qed.

Lemma mktree_bk_rec_enough fuel keys max_linear t :
  mktree_bk keys max_linear = Done t -> (S (length keys) <= fuel)%nat ->
  mktree_bk_rec fuel keys max_linear = Done t.
Proof.
  unfold mktree_bk. intros H Hle.
  induction Hle as [|fuel _ IH]; [exact H|]. now apply mktree_bk_rec_mono.
Qed.

Lemma mktree_vp_rec_mono fuel : forall keys max_linear t,
  mktree_vp_rec fuel keys max_linear = Done t ->
  mktree_vp_rec (S fuel) keys max_linear = Done t.
Proof.
  induction fuel as [|fuel IH]; intros keys ml t H; [discriminate|].
  remember (S fuel) as fuel1 eqn:E.
  rewrite E in H at 1. cbn [mktree_vp_rec] in H |- *.
  destruct keys as [|rootkey rest]; [discriminate|].
  destruct ((length (rootkey :: rest) <=? ml)%nat
            || (length (rootkey :: rest) <=? 1)%nat); [exact H|].
  destruct (length rest =? 0)%nat; [exact H|].
  destruct (dcnt_cumulative rootkey rest) as [dcnt a].
  destruct (negb (a =? length rest)%nat); [discriminate|].
  destruct (vp_threshold dcnt (length rest)) as [k|e]; [|discriminate].
  cbn [obind] in H |- *.
  destruct (vp_partition _ _ _ _ _) as [[tmp inear] ifar].
  destruct (negb _); [discriminate|].
  destruct (negb _); [discriminate|].
  assert (Hsub : forall (n : nat) (l : list bkey_t) o,
            (if (n =? 0)%nat then Done None
             else t <-- mktree_vp_rec fuel l ml ;; Done (Some t)) = Done o ->
            (if (n =? 0)%nat then Done None
             else t <-- mktree_vp_rec fuel1 l ml ;; Done (Some t)) = Done o).
  { intros n l o Ho. destruct (n =? 0)%nat; [exact Ho|].
    destruct (mktree_vp_rec fuel l ml) as [s|e] eqn:Hs; [|discriminate].
    rewrite (IH _ _ _ Hs). exact Ho. }
  match type of H with
  | obind ?m _ = _ => destruct m as [near|e] eqn:Hn; [|discriminate]
  end.
  rewrite (Hsub _ _ _ Hn). cbn [obind] in H |- *.
  match type of H with
  | obind ?m _ = _ => destruct m as [far|e] eqn:Hf; [|discriminate]
  end.
  rewrite (Hsub _ _ _ Hf). exact H.
Qed.

Lemma mktree_vp_rec_enough fuel keys max_linear t :
  mktree_vp keys max_linear = Done t -> (S (length keys) <= fuel)%nat ->
  mktree_vp_rec fuel keys max_linear = Done t.
Proof.
  unfold mktree_vp. intros H Hle.
  induction Hle as [|fuel _ IH]; [exact H|]. now apply mktree_vp_rec_mono.
Qed.

(** ** The built trees *)

Lemma mktree_bk_built keys max_linear :
  Forall bkey_ok keys -> keys <> [] ->
  exists t, mktree_bk keys max_linear = Done t /\ bk_built max_linear keys t.
Proof. intros Hok Hne. apply mktree_bk_rec_built; (assumption || lia). Qed.

Lemma mktree_vp_built keys max_linear t :
  Forall bkey_ok keys -> keys <> [] ->
  mktree_vp keys max_linear = Done t -> vp_built max_linear keys t.
Proof.
  intros Hok Hne H.
  destruct (mktree_vp_rec_cases (S (length keys)) keys max_linear Hok Hne
              (Nat.le_succ_diag_r _))
    as [(t' & Ht & Hb)|[Ht _]]; unfold mktree_vp in H; rewrite Ht in H.
  - now injection H as <-.
  - discriminate.
Qed.

Lemma mktree_vp_distinct keys max_linear :
  Forall bkey_ok keys -> keys <> [] -> NoDup keys ->
  exists t, mktree_vp keys max_linear = Done t /\ vp_built max_linear keys t.
Proof.
  intros Hok Hne Hnd.
  destruct (mktree_vp_rec_cases (S (length keys)) keys max_linear Hok Hne
              (Nat.le_succ_diag_r _))
    as [H|[_ H]]; [exact H | contradiction].
Qed.

Lemma submseteq_all_Permutation {A} (l k : list A) :
  l ⊆+ k -> NoDup k -> (forall x, x ∈ k -> x ∈ l) -> l ≡ₚ k.
Proof.
  intros Hsub Hnd Hall. apply NoDup_Permutation; [|assumption|].
  - apply submseteq_Permutation in Hsub as [k' Hk'].
    rewrite Hk' in Hnd. now apply NoDup_app in Hnd as [? _].
  - intros x. split; [|apply Hall]. intros Hx. eapply elem_of_submseteq; eauto.
Qed.


(** ** Statements about whole runs *)





(** Both trees are built and the leaves hold the input keys, each as often
    as it occurs. *)
Definition stored_in_leaves (keys : list bkey_t) (max_linear : nat) : Prop :=
  exists tb tv,
    mktree_bk keys max_linear = Done tb /\
    mktree_vp keys max_linear = Done tv /\
    concat (bk_leaves tb) ≡ₚ keys /\ concat (vp_leaves tv) ≡ₚ keys.

(** Both trees are built and the leaves together with the centers
    (vantage points) of the internal nodes hold the input keys, each as
    often as it occurs. *)
Definition stored_once (keys : list bkey_t) (max_linear : nat) : Prop :=
  exists tb tv,
    mktree_bk keys max_linear = Done tb /\
    mktree_vp keys max_linear = Done tv /\
    bk_centers tb ++ concat (bk_leaves tb) ≡ₚ keys /\
    vp_vantages tv ++ concat (vp_leaves tv) ≡ₚ keys.

(** The range of [tmp] the child loop of [mktree_bk] takes for distance [i]. *)
Definition bucket_range (rootkey : bkey_t) (keys : list bkey_t) (i : nat)
  : list bkey_t :=
  let dcnt := (dcnt_cumulative rootkey keys).1 in
  take (dcnt !!! i - dcnt !!! (i - 1))%nat
    (drop (dcnt !!! (i - 1)%nat) (bk_sort rootkey keys dcnt)).

(** *** Keys, centers and leaves *)

Lemma Permutation_app_swap4 {A} (a b c d : list A) :
  (a ++ b) ++ (c ++ d) ≡ₚ (a ++ c) ++ (b ++ d).
Proof.
  rewrite <- !app_assoc. apply Permutation_app_head.
  rewrite !app_assoc. apply Permutation_app_tail. apply Permutation_app_comm.
Qed.

Lemma bk_keys_centers_leaves t :
  bk_keys t ≡ₚ bk_centers t ++ concat (bk_leaves t).
Proof.
  induction t as [d n keys|d key child IH] using bktree_rect'.
  - cbn [bk_keys bk_centers bk_leaves concat app]. now rewrite app_nil_r.
  - rewrite bk_keys_tree, bk_centers_tree, bk_leaves_tree.
    rewrite <- app_comm_cons. apply Permutation_skip.
    induction IH as [|q l Hq _ IHl]; [reflexivity|].
    rewrite !fmap_cons. cbn [concat]. rewrite concat_app, Hq, IHl.
    apply Permutation_app_swap4.
Qed.

Lemma vp_keys_vantages_leaves t :
  vp_keys t ≡ₚ vp_vantages t ++ concat (vp_leaves t).
Proof.
  induction t as [n keys|thr vantage near far IHn IHf] using vptree_rect'.
  - cbn [vp_keys vp_vantages vp_leaves concat app]. now rewrite app_nil_r.
  - cbn [vp_keys vp_vantages vp_leaves]. rewrite concat_app.
    assert (Hn : match near with Some s => vp_keys s | None => [] end ≡ₚ
                 match near with Some s => vp_vantages s | None => [] end ++
                 concat (match near with Some s => vp_leaves s | None => [] end)).
    { destruct near as [s|]; [now apply IHn | reflexivity]. }
    assert (Hf : match far with Some s => vp_keys s | None => [] end ≡ₚ
                 match far with Some s => vp_vantages s | None => [] end ++
                 concat (match far with Some s => vp_leaves s | None => [] end)).
    { destruct far as [s|]; [now apply IHf | reflexivity]. }
    rewrite Hn, Hf. rewrite <- !Permutation_middle. rewrite <- app_comm_cons.
    apply Permutation_skip. apply Permutation_app_swap4.
Qed.

(** *** Exact matches *)


(** *** Queries on built trees *)





Lemma bk_built_distinct keys max_linear t :
  NoDup keys -> bk_built max_linear keys t -> bk_keys t ≡ₚ keys.
Proof.
  intros Hnd Hb. apply submseteq_all_Permutation; [|assumption|].
  - apply (built_sub _ _ _ Hb).
  - apply (built_all _ _ _ Hb).
Qed.

Lemma vp_built_distinct keys max_linear t :
  NoDup keys -> vp_built max_linear keys t -> vp_keys t ≡ₚ keys.
Proof.
  intros Hnd Hb. apply submseteq_all_Permutation; [|assumption|].
  - apply (vbuilt_sub _ _ _ Hb).
  - apply (vbuilt_all _ _ _ Hb).
Qed.

(** ** Main results *)





(** C2, as stated, fails: the tree built from the keys 0, 1 with leaves of
    one key keeps 0 as a center, in no leaf; and from the keys 5, 5, 6
    one of the two keys 5 is stored nowhere. *)
Lemma stored_in_leaves_fails :
  ~ stored_in_leaves [0; 1] 1 /\ ~ stored_once [5; 5; 6] 1.
Proof.
  split.
  - intros (tb & tv & Hb & _ & Hp & _).
    vm_compute in Hb. injection Hb as <-.
    apply Permutation_length in Hp. vm_compute in Hp. discriminate.
  - intros (tb & tv & Hb & _ & Hp & _).
    vm_compute in Hb. injection Hb as <-.
    apply Permutation_length in Hp. vm_compute in Hp. discriminate.
Qed.

(** C2 (amended): for every non-empty array of pairwise distinct keys and
    every leaf size, both trees are built and each input key is stored
    exactly once: in one leaf, or as the center (BK) or vantage point (VP) of
    one internal node. *)
Theorem stored_once_distinct keys max_linear :
  Forall bkey_ok keys -> keys <> [] -> NoDup keys ->
  stored_once keys max_linear.
Proof.
  intros Hok Hne Hnd.
  destruct (mktree_bk_built keys max_linear Hok Hne) as (tb & Htb & Hbb).
  destruct (mktree_vp_distinct keys max_linear Hok Hne Hnd) as (tv & Htv & Hvb).
  exists tb, tv. split; [assumption|]. split; [assumption|]. split.
  - rewrite <- bk_keys_centers_leaves. now apply bk_built_distinct with max_linear.
  - rewrite <- vp_keys_vantages_leaves. now apply vp_built_distinct with max_linear.
Qed.

Lemma stored_once_distinct_witness :
  (Forall bkey_ok [0; 1; 3; 7] /\ [0; 1; 3; 7] <> [] /\ NoDup [0; 1; 3; 7]) /\
  stored_once [0; 1; 3; 7] 1.
Proof.
  assert (Hok : Forall bkey_ok [0; 1; 3; 7])
    by (repeat constructor; unfold wB; lia).
  assert (Hnd : NoDup [0; 1; 3; 7]) by (apply (bool_decide_unpack (NoDup [0; 1; 3; 7])); vm_compute; exact I).
  split; [repeat split; (assumption || discriminate)|].
  apply (stored_once_distinct [0; 1; 3; 7] 1); (assumption || discriminate).
Defined.

(** *** The children a BK query visits *)

Lemma sorted_reach_split maxd d (p : list bktree) :
  StronglySorted Z.lt (bk_distance <$> p) ->
  exists skipped rest,
    p = skipped ++ filter (in_reach maxd d) p ++ rest /\
    Forall (fun q => bk_distance q < d - maxd) skipped /\
    Forall (fun q => d + maxd < bk_distance q) rest.
Proof.
  induction p as [|q p IH]; intros Hs.
  - exists [], []. repeat split; constructor.
  - pose proof (sorted_head_lt q p Hs) as Hlt.
    rewrite fmap_cons in Hs. apply StronglySorted_inv in Hs as [Hs _].
    destruct (IH Hs) as (s & r & Hp & Hsk & Hr).
    rewrite filter_cons.
    destruct (decide (in_reach maxd d q)) as [Hin|Hout].
    + assert (s = []) as ->.
      { destruct s as [|q' s]; [reflexivity|exfalso].
        inversion Hsk as [|? ? Hq' _]; subst.
        rewrite Forall_forall in Hlt. specialize (Hlt q').
        rewrite Hp in Hlt. specialize (Hlt ltac:(left)).
        unfold in_reach in Hin. lia. }
      exists [], r. repeat split; [|constructor|assumption].
      simpl in Hp |- *. now rewrite <- Hp.
    + destruct (Z_lt_le_dec (bk_distance q) (d - maxd)) as [Hlow|Hhigh].
      * exists (q :: s), r. repeat split; [|constructor; assumption|assumption].
        simpl. now rewrite <- Hp.
      * assert (Hall : Forall (fun q' => d + maxd < bk_distance q') (q :: p)).
        { unfold in_reach in Hout. constructor; [lia|].
          eapply Forall_impl; [exact Hlt|]. intros q' Hq'. simpl in Hq'. lia. }
        exists [], (q :: p). repeat split; [|constructor|assumption].
        rewrite bk_visit_none; [reflexivity|].
        inversion Hall; subst. eapply Forall_impl; [eassumption|].
        intros q' Hq'. simpl in Hq'. lia.
Qed.

Lemma sorted_filter (P : bktree -> Prop) `{forall q, Decision (P q)} p :
  StronglySorted Z.lt (bk_distance <$> p) ->
  StronglySorted Z.lt (bk_distance <$> filter P p).
Proof.
  induction p as [|q p IH]; intros Hs; [constructor|].
  pose proof (sorted_head_lt q p Hs) as Hlt.
  rewrite fmap_cons in Hs. apply StronglySorted_inv in Hs as [Hs _].
  rewrite filter_cons. destruct (decide (P q)); [|now apply IH].
  rewrite fmap_cons. constructor; [now apply IH|].
  apply Forall_fmap, Forall_forall. intros q' Hq'.
  apply list_elem_of_filter in Hq' as [_ Hq'].
  rewrite Forall_forall in Hlt. now apply Hlt.
Qed.

(** C3: at an internal BK node whose children come in increasing
    distance, a query with [d] the distance from the center to [ref]
    recurses into exactly the children whose distance [c] has
    [d - maxd <= c <= d + maxd], in increasing distance: the children before
    them have [c + maxd < d] and are skipped, the walk stops at the first
    child with [c > maxd + d]. *)
Theorem bk_query_visits_children_in_reach b dist key child ref maxd :
  0 <= maxd <= 32 ->
  StronglySorted Z.lt (bk_distance <$> child) ->
  Forall (fun q => 0 <= bk_distance q < 65536) child ->
  let d := distance key ref in
  let visited := filter (in_reach maxd d) child in
  query_bk b (BkTree dist key child) ref maxd =
    query_each (fun b q => query_bk b q ref maxd) visited
      (if d <=? maxd then addkey b key else b, 1%nat) /\
  StronglySorted Z.lt (bk_distance <$> visited) /\
  exists skipped rest,
    child = skipped ++ visited ++ rest /\
    Forall (fun q => bk_distance q + maxd < d) skipped /\
    Forall (fun q => bk_distance q > maxd + d) rest.
Proof.
  intros Hmaxd Hs Hrange d visited.
  pose proof (distance_lt_64 key ref) as Hd. fold d in Hd.
  split; [|split].
  - rewrite query_bk_loops. cbv zeta. fold d.
    apply bk_skip_visit_filter; try assumption; try (unfold wB; lia).
    eapply Forall_impl; [exact Hrange|]. intros q Hq. unfold fits, wB. simpl in Hq. lia.
  - now apply sorted_filter.
  - destruct (sorted_reach_split maxd d child Hs) as (s & r & Hp & Hsk & Hr).
    exists s, r. split; [exact Hp|]. split.
    + eapply Forall_impl; [exact Hsk|]. intros q Hq. simpl in Hq. lia.
    + eapply Forall_impl; [exact Hr|]. intros q Hq. simpl in Hq. lia.
Qed.

Lemma bk_query_visits_children_in_reach_witness :
  let child := [BkLinear 1 1 [1]; BkLinear 2 1 [3]; BkLinear 3 1 [7]] in
  (0 <= 1 <= 32 /\ StronglySorted Z.lt (bk_distance <$> child) /\
   Forall (fun q => 0 <= bk_distance q < 65536) child) /\
  query_bk buf_init (BkTree 0 0 child) 1 1 =
    query_each (fun b q => query_bk b q 1 1)
      (filter (in_reach 1 (distance 0 1)) child)
      (if distance 0 1 <=? 1 then addkey buf_init 0 else buf_init, 1%nat).
Proof.
  intros child.
  assert (Hs : StronglySorted Z.lt (bk_distance <$> child)).
  { unfold child. simpl. repeat constructor. }
  assert (Hr : Forall (fun q => 0 <= bk_distance q < 65536) child).
  { unfold child. repeat constructor; simpl; lia. }
  assert (Hm : 0 <= 1 <= 32) by lia.
  split; [repeat split; (assumption || lia)|].
  exact (proj1 (bk_query_visits_children_in_reach buf_init 0 0 child 1 1 Hm Hs Hr)).
Defined.

(** *** The parts of a VP node a query visits *)

(** C4: at an internal VP node with vantage [v] and threshold [thr], with
    [d] the distance from [v] to [ref], a query visits the near subtree
    (when present) iff [d <= maxd + thr], then appends the vantage iff
    [d <= maxd], then visits the far subtree (when present) iff
    [d + maxd > thr]. *)
Theorem vp_query_visits b thr vantage near far ref maxd :
  0 <= maxd <= 32 -> 0 <= thr < 65536 ->
  query_vp b (VpTree thr vantage near far) ref maxd =
  let d := distance vantage ref in
  let st1 := if decide (d <= maxd + thr)
             then query_vp_sub near ref maxd (b, 1%nat) else (b, 1%nat) in
  let st2 := if decide (d <= maxd) then (addkey st1.1 vantage, st1.2) else st1 in
  if decide (d + maxd > thr) then query_vp_sub far ref maxd st2 else st2.
Proof.
  intros Hmaxd Hthr. pose proof (distance_lt_64 vantage ref).
  apply query_vp_node; unfold wB; lia.
Qed.

Lemma vp_query_visits_witness :
  (0 <= 1 <= 32 /\ 0 <= 1 < 65536) /\
  query_vp buf_init (VpTree 1 0 (Some (VpLinear 1 [1])) (Some (VpLinear 1 [7]))) 0 1 =
  let d := distance 0 0 in
  let st1 := if decide (d <= 1 + 1)
             then query_vp_sub (Some (VpLinear 1 [1])) 0 1 (buf_init, 1%nat)
             else (buf_init, 1%nat) in
  let st2 := if decide (d <= 1) then (addkey st1.1 0, st1.2) else st1 in
  if decide (d + 1 > 1) then query_vp_sub (Some (VpLinear 1 [7])) 0 1 st2 else st2.
Proof.
  split; [lia|].
  apply (vp_query_visits buf_init 1 0 (Some (VpLinear 1 [1]))
           (Some (VpLinear 1 [7])) 0 1); lia.
Defined.

(** *** The VP threshold *)

(** The histogram and the count the threshold is chosen from, in the
    build step of an internal node with vantage [rootkey] and remaining
    keys [rest]. *)
Definition vp_step_dcnt (rootkey : bkey_t) (rest : list bkey_t) : list nat :=
  (dcnt_cumulative rootkey rest).1.

(** The threshold stored in an internal node is the one chosen from the
    histogram of its remaining keys. *)
Lemma mktree_vp_node rootkey rest max_linear t :
  (length (rootkey :: rest) <=? max_linear)%nat
    || (length (rootkey :: rest) <=? 1)%nat = false ->
  mktree_vp (rootkey :: rest) max_linear = Done t ->
  exists k near far,
    vp_threshold (vp_step_dcnt rootkey rest) (length rest) = Done k /\
    t = VpTree (Z.of_nat k) rootkey near far.
Proof.
  intros Hleaf H. unfold mktree_vp in H.
  remember (length (rootkey :: rest)) as fuel eqn:Efuel in H. clear Efuel.
  cbn [length mktree_vp_rec] in H.
  cbn [length] in Hleaf. rewrite Hleaf in H.
  apply orb_false_iff in Hleaf as [_ H1]. apply Nat.leb_gt in H1.
  destruct (Nat.eqb_spec (length rest) 0) as [E|_]; [lia|].
  unfold vp_step_dcnt.
  destruct (dcnt_cumulative rootkey rest) as [dcnt a].
  destruct (negb (a =? length rest)%nat); [discriminate|].
  cbn [fst].
  destruct (vp_threshold dcnt (length rest)) as [k|e]; [|discriminate].
  cbn [obind] in H.
  destruct (vp_partition _ _ _ _ _) as [[tmp inear] ifar].
  destruct (negb _); [discriminate|].
  destruct (negb _); [discriminate|].
  match type of H with
  | obind ?m _ = _ => destruct m as [near|e]; [|discriminate]
  end.
  cbn [obind] in H.
  match type of H with
  | obind ?m _ = _ => destruct m as [far|e]; [|discriminate]
  end.
  cbn [obind] in H. injection H as <-. now exists k, near, far.
Qed.

(** C5, as stated, fails: in the build step for the keys 5, 5 the single
    remaining key equals the vantage, no distance value has a cumulative
    count above the median, and no threshold is chosen by the rule. *)
Lemma threshold_rule_fails_on_repeated_key :
  ~ exists k, vp_threshold (vp_step_dcnt 5 [5]) 1 = Done k /\
              threshold_rule (vp_step_dcnt 5 [5]) 1 k.
Proof.
  intros (k & Hk & _). vm_compute in Hk. discriminate.
Qed.

(** C5 (amended): in a VP build step in which some remaining key differs
    from the vantage, the chosen threshold is the smallest distance value
    whose cumulative count exceeds
    [median = dcnt[0] + (n - dcnt[0]) / 2], less one when that value is not
    1 and [median - dcnt[k-1] <= dcnt[k] - median]; it lies in 1..32 and is
    the threshold stored in the node. *)
Theorem vp_threshold_choice rootkey rest max_linear :
  bkey_ok rootkey -> Forall bkey_ok rest ->
  (exists x, x ∈ rest /\ x <> rootkey) ->
  exists k,
    vp_threshold (vp_step_dcnt rootkey rest) (length rest) = Done k /\
    threshold_rule (vp_step_dcnt rootkey rest) (length rest) k /\
    (1 <= k <= MAX_DISTANCE)%nat /\
    forall t,
      (length (rootkey :: rest) <=? max_linear)%nat
        || (length (rootkey :: rest) <=? 1)%nat = false ->
      mktree_vp (rootkey :: rest) max_linear = Done t ->
      exists near far, t = VpTree (Z.of_nat k) rootkey near far.
Proof.
  intros Hroot Hrest (x & Hx & Hne).
  pose proof (Forall_dist_index rootkey rest Hroot Hrest) as Hidx.
  pose proof (dcnt_cumulative_is_cumulative rootkey rest Hidx) as Hcum.
  assert (Hlt : (vp_step_dcnt rootkey rest !!! 0 < length rest)%nat).
  { unfold vp_step_dcnt.
    rewrite dcnt_cumulative_total_lookup by (unfold MAX_DISTANCE; lia).
    unfold upto. apply (length_filter_lt _ _ x); [assumption|].
    intros H0. apply Hne.
    rewrite Forall_forall in Hrest.
    apply (dist_index_0 rootkey x Hroot (Hrest x Hx)). lia. }
  destruct (vp_threshold_rule _ _ Hcum Hlt) as (k & Hk & Hrule & Hk1).
  exists k. repeat split; try assumption; try lia.
  intros t Hleaf Ht.
  destruct (mktree_vp_node rootkey rest max_linear t Hleaf Ht)
    as (k' & near & far & Hk' & ->).
  unfold vp_step_dcnt in Hk'. rewrite Hk in Hk'. injection Hk' as <-. now exists near, far.
Qed.

Lemma vp_threshold_choice_witness :
  (bkey_ok 0 /\ Forall bkey_ok [1; 3; 7] /\ (exists x, x ∈ [1; 3; 7] /\ x <> 0)) /\
  exists k,
    vp_threshold (vp_step_dcnt 0 [1; 3; 7]) (length [1; 3; 7]) = Done k /\
    threshold_rule (vp_step_dcnt 0 [1; 3; 7]) (length [1; 3; 7]) k.
Proof.
  assert (Hr : bkey_ok 0) by (unfold bkey_ok, wB; lia).
  assert (Hok : Forall bkey_ok [1; 3; 7]) by (repeat constructor; unfold wB; lia).
  assert (Hx : exists x, x ∈ [1; 3; 7] /\ x <> 0) by (exists 1; split; [left | lia]).
  split; [split; [exact Hr | split; [exact Hok | exact Hx]]|].
  destruct (vp_threshold_choice 0 [1; 3; 7] 1 Hr Hok Hx) as (k & Hk & Hrule & _).
  exists k. split; assumption.
Defined.

(** *** The counting sort of the BK build *)

(** C6, as stated, fails: with center 0 and remaining keys 1, 2, 4, all at
    distance 1, the range of bucket 1 holds 4, 2, 1. *)
Lemma counting_sort_not_stable :
  ~ forall i, (1 <= i <= MAX_DISTANCE)%nat ->
              bucket_range 0 [1; 2; 4] i = bucket 0 [1; 2; 4] i.
Proof.
  intros H. specialize (H 1%nat ltac:(unfold MAX_DISTANCE; lia)).
  vm_compute in H. discriminate.
Qed.

(** C6 (amended): in every BK build step the counting sort puts the keys
    at distance [i] from the center, for [i] in 1..32, in the range the
    child loop reads for [i], in the reverse of their order in the input
    range. *)
Theorem counting_sort_reverses rootkey keys i :
  bkey_ok rootkey -> Forall bkey_ok keys -> (1 <= i <= MAX_DISTANCE)%nat ->
  bucket_range rootkey keys i =
  reverse (filter (fun k => distance rootkey k = Z.of_nat i) keys).
Proof.
  intros Hroot Hok Hi. unfold bucket_range. cbv zeta.
  destruct i as [|i]; [lia|].
  rewrite bk_slice by (try apply Forall_dist_index; (assumption || lia)).
  f_equal. unfold bucket. apply list_filter_iff. intros k. apply dist_index_eq.
Qed.

Lemma counting_sort_reverses_witness :
  (bkey_ok 0 /\ Forall bkey_ok [1; 2; 4] /\ (1 <= 1 <= MAX_DISTANCE)%nat) /\
  bucket_range 0 [1; 2; 4] 1 =
  reverse (filter (fun k => distance 0 k = Z.of_nat 1) [1; 2; 4]).
Proof.
  assert (Hr : bkey_ok 0) by (unfold bkey_ok, wB; lia).
  assert (Hok : Forall bkey_ok [1; 2; 4]) by (repeat constructor; unfold wB; lia).
  assert (Hi : (1 <= 1 <= MAX_DISTANCE)%nat) by (unfold MAX_DISTANCE; lia).
  split; [repeat split; (assumption || lia)|].
  apply (counting_sort_reverses 0 [1; 2; 4] 1 Hr Hok Hi).
Defined.

(** *** The metric *)

(** C7: on 32-bit keys [distance x y] is the number of bit positions in
    which [x] and [y] differ, the population count of [x XOR y]; it is 0
    from a key to itself, symmetric, satisfies the triangle inequality and
    lies in 0..32. *)
Theorem distance_is_hamming_metric x y z :
  bkey_ok x -> bkey_ok y -> bkey_ok z ->
  distance x y = hamming x y /\
  distance x y = popcount (Z.lxor x y) /\
  distance x x = 0 /\
  distance x y = distance y x /\
  distance x z <= distance x y + distance y z /\
  0 <= distance x y <= 32.
Proof.
  intros Hx Hy Hz. repeat split.
  - rewrite hamming_popcount. now apply distance_popcount.
  - now apply distance_popcount.
  - apply distance_refl.
  - apply distance_sym.
  - now apply distance_triangle.
  - now apply distance_range.
  - now apply distance_range.
Qed.

Lemma distance_is_hamming_metric_witness :
  (bkey_ok 5 /\ bkey_ok 3 /\ bkey_ok 4294967295) /\
  distance 5 3 = hamming 5 3 /\
  distance 5 3 = popcount (Z.lxor 5 3) /\
  distance 5 5 = 0 /\
  distance 5 3 = distance 3 5 /\
  distance 5 4294967295 <= distance 5 3 + distance 3 4294967295 /\
  0 <= distance 5 3 <= 32.
Proof.
  assert (H5 : bkey_ok 5) by (unfold bkey_ok, wB; lia).
  assert (H3 : bkey_ok 3) by (unfold bkey_ok, wB; lia).
  assert (Hm : bkey_ok 4294967295) by (unfold bkey_ok, wB; lia).
  split; [split; [exact H5 | split; [exact H3 | exact Hm]]|].
  apply (distance_is_hamming_metric 5 3 4294967295 H5 H3 Hm).
Defined.

(** *** Exact match *)




(** *** Leaf sizes *)

(** The test [if (n <= max_linear || n <= 1)] on a range of [n] keys. *)
Definition leaf_test (n max_linear : nat) : bool :=
  (n <=? max_linear)%nat || (n <=? 1)%nat.




(** *** The read past the histogram *)

(** C10 fails on the code: in the build step of [mktree_vp] for the keys
    5, 5 with leaves of one key (an internal node, since 2 > 1), the
    histogram has 33 entries, the threshold loop ends with [k = 33], the
    read of [dcnt[33]] is out of bounds, and no remaining key is at a
    nonzero distance from the vantage. *)
Theorem vp_threshold_loop_runs_off_histogram :
  let dcnt := vp_step_dcnt 5 [5] in
  leaf_test (length [5; 5]) 1 = false /\
  length dcnt = 33%nat /\
  vp_scan dcnt (vp_median dcnt 1) 1 MAX_DISTANCE = 33%nat /\
  dcnt_read dcnt 33 = Abort ReadOutOfBounds /\
  mktree_vp [5; 5] 1 = Abort ReadOutOfBounds /\
  Forall (fun x => distance 5 x = 0) [5].
Proof.
  cbv zeta.
  split; [vm_compute; reflexivity|]. split; [vm_compute; reflexivity|].
  split; [vm_compute; reflexivity|]. split; [vm_compute; reflexivity|].
  split; [vm_compute; reflexivity|].
  constructor; [vm_compute; reflexivity | constructor].
Qed.

(** ** Further properties of the code *)

(** *** The metric separates keys *)

(** X1: two 32-bit keys are at distance 0 exactly when they are equal. *)
Theorem distance_zero_only_for_equal_keys x y :
  bkey_ok x -> bkey_ok y -> (distance x y = 0 <-> x = y).
Proof. intros Hx Hy. now apply distance_zero_iff. Qed.

Lemma distance_zero_only_for_equal_keys_witness :
  (bkey_ok 6 /\ bkey_ok 6) /\ (distance 6 6 = 0 <-> 6 = 6).
Proof.
  assert (H6 : bkey_ok 6) by (unfold bkey_ok, wB; lia).
  split; [split; exact H6|].
  apply (distance_zero_only_for_equal_keys 6 6 H6 H6).
Defined.

(** *** The histogram *)

Lemma upto_distance rootkey keys i :
  upto rootkey keys i = filter (fun k => distance rootkey k <= Z.of_nat i) keys.
Proof.
  unfold upto. apply list_filter_iff. intros k.
  pose proof (distance_lt_64 rootkey k). unfold dist_index. lia.
Qed.

(** X2: after the three histogram loops of a build step, entry [i] of
    [dcnt] is the number of remaining keys within distance [i] of the
    center, and the running total [a] is the number of remaining keys, so
    that [assert(a == n)] holds. *)
Theorem histogram_counts_keys_within rootkey keys i :
  bkey_ok rootkey -> Forall bkey_ok keys -> (i <= MAX_DISTANCE)%nat ->
  (dcnt_cumulative rootkey keys).1 !! i =
    Some (length (filter (fun k => distance rootkey k <= Z.of_nat i) keys)) /\
  (dcnt_cumulative rootkey keys).2 = length keys.
Proof.
  intros Hr Hok Hi. split.
  - rewrite dcnt_cumulative_lookup by lia. now rewrite upto_distance.
  - rewrite dcnt_cumulative_total. f_equal. apply upto_all.
    now apply Forall_dist_index.
Qed.

Lemma histogram_counts_keys_within_witness :
  (bkey_ok 0 /\ Forall bkey_ok [1; 3; 7; 2] /\ (2 <= MAX_DISTANCE)%nat) /\
  (dcnt_cumulative 0 [1; 3; 7; 2]).1 !! 2%nat =
    Some (length (filter (fun k => distance 0 k <= Z.of_nat 2) [1; 3; 7; 2])) /\
  (dcnt_cumulative 0 [1; 3; 7; 2]).2 = length [1; 3; 7; 2].
Proof.
  assert (Hr : bkey_ok 0) by (unfold bkey_ok, wB; lia).
  assert (Hok : Forall bkey_ok [1; 3; 7; 2]) by (repeat constructor; unfold wB; lia).
  assert (Hi : (2 <= MAX_DISTANCE)%nat) by (unfold MAX_DISTANCE; lia).
  split; [split; [exact Hr | split; [exact Hok | exact Hi]]|].
  apply (histogram_counts_keys_within 0 [1; 3; 7; 2] 2 Hr Hok Hi).
Defined.

(** *** The counting sort as a whole *)

Lemma bk_sort_prefix rootkey keys i :
  Forall (fun k => (dist_index rootkey k <= MAX_DISTANCE)%nat) keys ->
  (i <= MAX_DISTANCE)%nat ->
  take (length (upto rootkey keys i))
    (bk_sort rootkey keys (dcnt_cumulative rootkey keys).1) =
  concat ((fun j => reverse (bucket rootkey keys j)) <$> seq 0 (S i)).
Proof.
  intros Hidx. induction i as [|i IH]; intros Hi.
  - pose proof (bk_sort_bucket rootkey keys Hidx 0%nat ltac:(lia)) as H0.
    cbv beta zeta in H0.
    rewrite (upto_0 rootkey keys) in H0 |- *. rewrite Nat.sub_diag, drop_0 in H0.
    rewrite H0. simpl. now rewrite app_nil_r.
  - rewrite seq_S, fmap_app, concat_app, <- IH by lia. simpl.
    rewrite app_nil_r.
    rewrite <- (bk_sort_bucket rootkey keys Hidx (S i)) by lia.
    rewrite upto_S_length.
    replace (length (upto rootkey keys i) + length (bucket rootkey keys (S i))
             - length (bucket rootkey keys (S i)))%nat
      with (length (upto rootkey keys i)) by lia.
    symmetry. apply take_take_drop.
Qed.

Lemma bk_sort_concat rootkey keys :
  Forall (fun k => (dist_index rootkey k <= MAX_DISTANCE)%nat) keys ->
  bk_sort rootkey keys (dcnt_cumulative rootkey keys).1 =
  concat ((fun j => reverse (bucket rootkey keys j)) <$> seq 0 (S MAX_DISTANCE)).
Proof.
  intros Hidx. rewrite <- (bk_sort_prefix rootkey keys MAX_DISTANCE Hidx (le_n _)).
  symmetry. apply take_ge.
  rewrite bk_sort_length by assumption. now rewrite upto_all.
Qed.

Lemma concat_reverse_buckets rootkey keys idxs :
  concat ((fun j => reverse (bucket rootkey keys j)) <$> idxs) ≡ₚ
  concat (bucket rootkey keys <$> idxs).
Proof.
  induction idxs as [|i idxs IH]; [reflexivity|].
  rewrite !fmap_cons. cbn [concat]. now rewrite IH, reverse_Permutation.
Qed.

Lemma length_concat_buckets rootkey keys i :
  length (concat (bucket rootkey keys <$> seq 0 (S i))) =
  length (upto rootkey keys i).
Proof.
  induction i as [|i IH].
  - simpl. now rewrite app_nil_r, upto_0.
  - rewrite seq_S, fmap_app, concat_app, length_app, IH, upto_S_length.
    simpl. rewrite app_nil_r. reflexivity.
Qed.

(** X3: the counting sort of a BK build step returns the remaining keys
    grouped by increasing distance from the center, distance 0 first,
    each group in the reverse of its input order; the result is a
    rearrangement of the input. *)
Theorem counting_sort_groups_by_distance rootkey keys :
  bkey_ok rootkey -> Forall bkey_ok keys ->
  bk_sort rootkey keys (dcnt_cumulative rootkey keys).1 =
    concat ((fun j => reverse (filter (fun k => distance rootkey k = Z.of_nat j) keys))
              <$> seq 0 33) /\
  bk_sort rootkey keys (dcnt_cumulative rootkey keys).1 ≡ₚ keys.
Proof.
  intros Hr Hok. pose proof (Forall_dist_index rootkey keys Hr Hok) as Hidx.
  rewrite bk_sort_concat by assumption. split.
  - f_equal. apply list_fmap_ext. intros n j _. f_equal.
    unfold bucket. apply list_filter_iff. intros k. apply dist_index_eq.
  - rewrite concat_reverse_buckets.
    apply submseteq_length_Permutation.
    + apply buckets_submseteq, NoDup_seq.
    + rewrite length_concat_buckets, upto_all by assumption. lia.
Qed.

Lemma counting_sort_groups_by_distance_witness :
  (bkey_ok 0 /\ Forall bkey_ok [3; 1; 2; 0; 4]) /\
  bk_sort 0 [3; 1; 2; 0; 4] (dcnt_cumulative 0 [3; 1; 2; 0; 4]).1 ≡ₚ [3; 1; 2; 0; 4].
Proof.
  assert (Hr : bkey_ok 0) by (unfold bkey_ok, wB; lia).
  assert (Hok : Forall bkey_ok [3; 1; 2; 0; 4])
    by (repeat constructor; unfold wB; lia).
  split; [split; [exact Hr | exact Hok]|].
  exact (proj2 (counting_sort_groups_by_distance 0 [3; 1; 2; 0; 4] Hr Hok)).
Defined.

(** *** Outcomes of the BK build *)

(** X4: [mktree_bk] stops on [assert(n > 0)] for an empty array, and for
    every non-empty array of 32-bit keys it builds a tree: no assertion
    fails and the recursion ends. *)
Theorem mktree_bk_builds keys max_linear :
  Forall bkey_ok keys ->
  (keys = [] /\ mktree_bk keys max_linear = Abort AssertionFailed) \/
  (keys <> [] /\ exists t, mktree_bk keys max_linear = Done t).
Proof.
  intros Hok. destruct keys as [|k keys].
  - left. split; reflexivity.
  - right. split; [discriminate|].
    destruct (mktree_bk_built (k :: keys) max_linear Hok ltac:(discriminate))
      as (t & Ht & _).
    now exists t.
Qed.

Lemma mktree_bk_builds_witness :
  Forall bkey_ok [9; 9; 4; 9] /\
  ((([9; 9; 4; 9] : list Z) = [] /\ mktree_bk [9; 9; 4; 9] 1 = Abort AssertionFailed) \/
   (([9; 9; 4; 9] : list Z) <> [] /\ exists t, mktree_bk [9; 9; 4; 9] 1 = Done t)).
Proof.
  assert (Hok : Forall bkey_ok [9; 9; 4; 9])
    by (repeat constructor; unfold wB; lia).
  split; [exact Hok|].
  apply (mktree_bk_builds [9; 9; 4; 9] 1 Hok).
Defined.



(** X6: whatever keys repeat, a tree built by [mktree_bk] stores no key
    that is not in the input and none more often than the input has it,
    and it stores every key value of the input at least once. *)
Theorem mktree_bk_stores_every_value keys max_linear t :
  Forall bkey_ok keys -> mktree_bk keys max_linear = Done t ->
  bk_keys t ⊆+ keys /\ (forall x, x ∈ keys <-> x ∈ bk_keys t).
Proof.
  intros Hok Ht. destruct keys as [|k keys]; [discriminate|].
  destruct (mktree_bk_built (k :: keys) max_linear Hok ltac:(discriminate))
    as (t' & Ht' & Hb).
  rewrite Ht in Ht'. injection Ht' as <-.
  split; [apply (built_sub _ _ _ Hb)|].
  intros x. split; [apply (built_all _ _ _ Hb)|].
  intros Hx. eapply elem_of_submseteq; [exact Hx | apply (built_sub _ _ _ Hb)].
Qed.

Lemma mktree_bk_stores_every_value_witness :
  (Forall bkey_ok [5; 5; 6] /\ mktree_bk [5; 5; 6] 1 = Done (BkTree 0 5 [BkLinear 2 1 [6]])) /\
  bk_keys (BkTree 0 5 [BkLinear 2 1 [6]]) ⊆+ [5; 5; 6].
Proof.
  assert (Hok : Forall bkey_ok [5; 5; 6]) by (repeat constructor; unfold wB; lia).
  assert (Ht : mktree_bk [5; 5; 6] 1 = Done (BkTree 0 5 [BkLinear 2 1 [6]]))
    by (vm_compute; reflexivity).
  split; [split; [exact Hok | exact Ht]|].
  exact (proj1 (mktree_bk_stores_every_value [5; 5; 6] 1 _ Hok Ht)).
Defined.

(** *** Outcomes of the VP build *)

(** X7: for every non-empty array of 32-bit keys [mktree_vp] either
    builds a tree or stops on the read past the histogram; no assertion
    fails, and the read past the histogram happens only when a key
    repeats. *)
Theorem mktree_vp_outcomes keys max_linear :
  Forall bkey_ok keys -> keys <> [] ->
  (exists t, mktree_vp keys max_linear = Done t) \/
  (mktree_vp keys max_linear = Abort ReadOutOfBounds /\ ~ NoDup keys).
Proof.
  intros Hok Hne.
  destruct (mktree_vp_rec_cases (S (length keys)) keys max_linear Hok Hne
              (Nat.le_succ_diag_r _))
    as [(t & Ht & _)|H]; [left; now exists t | right; exact H].
Qed.

Lemma mktree_vp_outcomes_witness :
  (Forall bkey_ok [5; 6; 5; 5] /\ ([5; 6; 5; 5] : list Z) <> []) /\
  ((exists t, mktree_vp [5; 6; 5; 5] 1 = Done t) \/
   (mktree_vp [5; 6; 5; 5] 1 = Abort ReadOutOfBounds /\ ~ NoDup [5; 6; 5; 5])).
Proof.
  assert (Hok : Forall bkey_ok [5; 6; 5; 5])
    by (repeat constructor; unfold wB; lia).
  assert (Hne : ([5; 6; 5; 5] : list Z) <> []) by discriminate.
  split; [split; [exact Hok | exact Hne]|].
  apply (mktree_vp_outcomes [5; 6; 5; 5] 1 Hok Hne).
Defined.

Lemma upto_0_when_all_equal rootkey rest :
  Forall (fun x => x = rootkey) rest -> upto rootkey rest 0 = rest.
Proof.
  intros H. apply upto_all. eapply Forall_impl; [exact H|].
  intros x ->. unfold dist_index. rewrite distance_refl. simpl. lia.
Qed.

(** X8: whenever a range given to [mktree_vp] is too long for a leaf and
    all its keys are equal, the build step reads [dcnt[33]], past the end
    of the histogram. *)
Theorem mktree_vp_reads_past_histogram rootkey rest max_linear :
  bkey_ok rootkey -> rest <> [] -> Forall (fun x => x = rootkey) rest ->
  (max_linear < length (rootkey :: rest))%nat ->
  mktree_vp (rootkey :: rest) max_linear = Abort ReadOutOfBounds.
Proof.
  intros Hr Hne Hall Hml.
  assert (Hok : Forall bkey_ok rest).
  { eapply Forall_impl; [exact Hall|]. now intros x ->. }
  assert (Hlen : (1 <= length rest)%nat) by (destruct rest; [congruence | simpl; lia]).
  simpl length in Hml.
  unfold mktree_vp.
  generalize (length (rootkey :: rest)) at 1. intros fuel.
  cbn [length mktree_vp_rec].
  rewrite (proj2 (Nat.leb_gt _ _) Hml).
  rewrite (proj2 (Nat.leb_gt (S (length rest)) 1)) by lia. cbn [orb].
  destruct (Nat.eqb_spec (length rest) 0) as [E|_]; [lia|].
  pose proof (Forall_dist_index rootkey rest Hr Hok) as Hidx.
  pose proof (dcnt_cumulative_total rootkey rest) as Ha.
  rewrite (upto_all rootkey rest MAX_DISTANCE Hidx) in Ha.
  pose proof (dcnt_cumulative_is_cumulative rootkey rest Hidx) as Hcum.
  pose proof (dcnt_cumulative_total_lookup rootkey rest 0 ltac:(lia)) as H0.
  rewrite (upto_0_when_all_equal rootkey rest Hall) in H0.
  destruct (dcnt_cumulative rootkey rest) as [dcnt a].
  simpl in Ha, Hcum, H0. subst a. rewrite Nat.eqb_refl. cbn [negb].
  rewrite (vp_threshold_off_end dcnt (length rest) Hcum H0). reflexivity.
Qed.

Lemma mktree_vp_reads_past_histogram_witness :
  (bkey_ok 7 /\ ([7; 7] : list Z) <> [] /\ Forall (fun x => x = 7) [7; 7] /\
   (2 < length [7; 7; 7])%nat) /\
  mktree_vp [7; 7; 7] 2 = Abort ReadOutOfBounds.
Proof.
  assert (Hr : bkey_ok 7) by (unfold bkey_ok, wB; lia).
  assert (Hne : ([7; 7] : list Z) <> []) by discriminate.
  assert (Hall : Forall (fun x => x = 7) [7; 7]) by (repeat constructor).
  assert (Hml : (2 < length [7; 7; 7])%nat) by (simpl; lia).
  split; [split; [exact Hr | split; [exact Hne | split; [exact Hall | exact Hml]]]|].
  apply (mktree_vp_reads_past_histogram 7 [7; 7] 2 Hr Hne Hall Hml).
Defined.

(** X9: the sorting loop of a VP build step, with the set sizes read off
    the histogram, leaves in [tmp] first the keys other than the vantage
    within distance [k] of it, then the keys farther away, each set in
    input order; copies of the vantage are left out, and both assertions
    on [inear] and [ifar] hold. *)
Theorem vp_partition_keeps_input_order rootkey keys k :
  bkey_ok rootkey -> Forall bkey_ok keys -> (k <= MAX_DISTANCE)%nat ->
  vp_partition rootkey (Z.of_nat k) keys
    ((dcnt_cumulative rootkey keys).1 !!! k - (dcnt_cumulative rootkey keys).1 !!! 0%nat)
    (length keys - (dcnt_cumulative rootkey keys).1 !!! k) =
  (filter (fun x => x <> rootkey /\ distance rootkey x <= Z.of_nat k) keys ++
   filter (fun x => x <> rootkey /\ ~ distance rootkey x <= Z.of_nat k) keys,
   ((dcnt_cumulative rootkey keys).1 !!! k - (dcnt_cumulative rootkey keys).1 !!! 0%nat)%nat,
   (((dcnt_cumulative rootkey keys).1 !!! k - (dcnt_cumulative rootkey keys).1 !!! 0%nat) +
    (length keys - (dcnt_cumulative rootkey keys).1 !!! k))%nat).
Proof.
  intros Hr Hok Hk.
  rewrite (dcnt_cumulative_total_lookup rootkey keys k) by (unfold MAX_DISTANCE in *; lia).
  rewrite (dcnt_cumulative_total_lookup rootkey keys 0) by (unfold MAX_DISTANCE; lia).
  destruct (vp_counts rootkey keys k Hr Hok) as [H1 H2].
  replace (length (upto rootkey keys k) - length (upto rootkey keys 0))%nat
    with (length (vp_nears rootkey (Z.of_nat k) keys)) by lia.
  replace (length keys - length (upto rootkey keys k))%nat
    with (length (vp_fars rootkey (Z.of_nat k) keys)) by lia.
  exact (vp_partition_spec rootkey (Z.of_nat k) keys).
Qed.

Lemma vp_partition_keeps_input_order_witness :
  (bkey_ok 0 /\ Forall bkey_ok [7; 1; 0; 3; 2] /\ (1 <= MAX_DISTANCE)%nat) /\
  (vp_partition 0 (Z.of_nat 1) [7; 1; 0; 3; 2]
     ((dcnt_cumulative 0 [7; 1; 0; 3; 2]).1 !!! 1%nat -
      (dcnt_cumulative 0 [7; 1; 0; 3; 2]).1 !!! 0%nat)
     (length [7; 1; 0; 3; 2] - (dcnt_cumulative 0 [7; 1; 0; 3; 2]).1 !!! 1%nat)).1.1 =
  filter (fun x => x <> 0 /\ distance 0 x <= Z.of_nat 1) [7; 1; 0; 3; 2] ++
  filter (fun x => x <> 0 /\ ~ distance 0 x <= Z.of_nat 1) [7; 1; 0; 3; 2].
Proof.
  assert (Hr : bkey_ok 0) by (unfold bkey_ok, wB; lia).
  assert (Hok : Forall bkey_ok [7; 1; 0; 3; 2])
    by (repeat constructor; unfold wB; lia).
  assert (Hk : (1 <= MAX_DISTANCE)%nat) by (unfold MAX_DISTANCE; lia).
  split; [split; [exact Hr | split; [exact Hok | exact Hk]]|].
  exact (f_equal (fun r => r.1.1)
           (vp_partition_keeps_input_order 0 [7; 1; 0; 3; 2] 1 Hr Hok Hk)).
Defined.



(** X11: whatever keys repeat, a tree built by [mktree_vp] stores no key
    that is not in the input and none more often than the input has it,
    and it stores every key value of the input at least once. *)
Theorem mktree_vp_stores_every_value keys max_linear t :
  Forall bkey_ok keys -> mktree_vp keys max_linear = Done t ->
  vp_keys t ⊆+ keys /\ (forall x, x ∈ keys <-> x ∈ vp_keys t).
Proof.
  intros Hok Ht. destruct keys as [|k keys]; [discriminate|].
  pose proof (mktree_vp_built (k :: keys) max_linear t Hok ltac:(discriminate) Ht)
    as Hb.
  split; [apply (vbuilt_sub _ _ _ Hb)|].
  intros x. split; [apply (vbuilt_all _ _ _ Hb)|].
  intros Hx. eapply elem_of_submseteq; [exact Hx | apply (vbuilt_sub _ _ _ Hb)].
Qed.

Lemma mktree_vp_stores_every_value_witness :
  (Forall bkey_ok [5; 5; 6] /\
   mktree_vp [5; 5; 6] 1 = Done (VpTree 1 5 None (Some (VpLinear 1 [6])))) /\
  vp_keys (VpTree 1 5 None (Some (VpLinear 1 [6]))) ⊆+ [5; 5; 6].
Proof.
  assert (Hok : Forall bkey_ok [5; 5; 6]) by (repeat constructor; unfold wB; lia).
  assert (Ht : mktree_vp [5; 5; 6] 1 = Done (VpTree 1 5 None (Some (VpLinear 1 [6]))))
    by (vm_compute; reflexivity).
  split; [split; [exact Hok | exact Ht]|].
  exact (proj1 (mktree_vp_stores_every_value [5; 5; 6] 1 _ Hok Ht)).
Defined.

(** *** Queries over arrays with repeated keys *)








(** X14: a linear query leaves what the buffer held in place, appends
    after it exactly the keys of the array within [maxd] of [ref], in
    array order, and returns the number of keys of the array. *)
Theorem query_linear_result b keys max_linear ref maxd :
  buf_keys (query_linear b (mktree_linear keys max_linear) ref maxd).1 =
    buf_keys b ++ filter (fun x => distance ref x <= maxd) keys /\
  (query_linear b (mktree_linear keys max_linear) ref maxd).2 = length keys.
Proof. split; [apply query_linear_keys | reflexivity]. Qed.

(** *** The number of comparisons a query reports *)


Lemma bk_skip_Forall (P : bktree -> Prop) maxd d p :
  Forall P p -> Forall P (bk_skip maxd d p).
Proof.
  induction 1 as [|q p Hq Hp IH]; cbn [bk_skip]; [constructor|].
  destruct (add32 (bk_distance q) maxd <? d); [exact IH | now constructor].
Qed.







Ltac query_vp_step IH s :=
  match goal with
  | |- context [query_vp ?b0 s ?ref ?maxd] =>
      let H := fresh "H" in
      pose proof (IH b0) as H;
      destruct (query_vp b0 s ref maxd) as [? ?]; cbn [fst snd] in H
  end.




(** *** The result buffer *)

(** The keys appended so far fit the capacity. *)
Definition buf_ok (b : buf) : Prop := (buf_n b <= buf_a b)%nat.

(** [b'] is [b] after some calls of [addkey]. *)
Definition grown (b b' : buf) : Prop := exists l, b' = fold_left addkey l b.

(** [b'] still starts with the keys of [b], has at least its capacity,
    and its keys fit its capacity. *)
Definition buf_extends (b b' : buf) : Prop :=
  buf_ok b' /\ (buf_a b <= buf_a b')%nat /\ buf_keys b `prefix_of` buf_keys b'.

Lemma grown_refl b : grown b b.
Proof. now exists []. Qed.

Lemma grown_trans b1 b2 b3 : grown b1 b2 -> grown b2 b3 -> grown b1 b3.
Proof. intros [l1 ->] [l2 ->]. exists (l1 ++ l2). now rewrite fold_left_app. Qed.

Lemma grown_addkey b k : grown b (addkey b k).
Proof. now exists [k]. Qed.

Lemma grown_scan_keys keys : forall b ref maxd, grown b (scan_keys b keys ref maxd).
Proof.
  induction keys as [|k keys IH]; intros b ref maxd; [apply grown_refl|].
  rewrite scan_keys_cons. eapply grown_trans; [|apply IH].
  destruct (distance ref k <=? maxd); [apply grown_addkey | apply grown_refl].
Qed.

Lemma bk_visit_grown (query : buf -> bktree -> buf * nat) maxd d p :
  Forall (fun q => forall b, grown b (query b q).1) p ->
  forall b nc, grown b (bk_visit query maxd d p b nc).1.
Proof.
  induction 1 as [|q p Hq _ IH]; intros b nc; cbn [bk_visit]; [apply grown_refl|].
  destruct (bk_distance q <=? add32 maxd d); [|apply grown_refl].
  specialize (Hq b). destruct (query b q) as [b' n].
  eapply grown_trans; [exact Hq | apply IH].
Qed.

Lemma query_bk_grown ref maxd t : forall b, grown b (query_bk b t ref maxd).1.
Proof.
  induction t as [d n keys|d key child IH] using bktree_rect'; intros b.
  - cbn [query_bk fst]. apply grown_scan_keys.
  - rewrite query_bk_loops. cbv zeta.
    generalize (distance key ref). intros dr.
    eapply grown_trans;
      [|apply bk_visit_grown, bk_skip_Forall; exact IH].
    destruct (dr <=? maxd); [apply grown_addkey | apply grown_refl].
Qed.

Lemma query_vp_grown ref maxd t : forall b, grown b (query_vp b t ref maxd).1.
Proof.
  induction t as [n keys|thr vantage near far IHn IHf] using vptree_rect';
    intros b.
  - cbn [query_vp fst]. apply grown_scan_keys.
  - cbn [query_vp].
    generalize (distance vantage ref). intros d.
    assert (Hv : forall b0, grown b0 (if d <=? maxd then addkey b0 vantage else b0)).
    { intros b0. destruct (d <=? maxd); [apply grown_addkey | apply grown_refl]. }
    destruct (d <=? add32 maxd thr); destruct (thr <? add32 d maxd);
      destruct near as [s1|]; destruct far as [s2|];
      try specialize (IHn s1 eq_refl); try specialize (IHf s2 eq_refl);
      try query_vp_step IHn s1; try query_vp_step IHf s2;
      cbn [fst snd];
      eauto using grown_refl, grown_trans.
Qed.

Lemma addkey_ok b k :
  buf_ok b ->
  (buf_n b < buf_a (addkey b k))%nat /\ buf_ok (addkey b k) /\
  (buf_a b <= buf_a (addkey b k))%nat.
Proof.
  unfold buf_ok, addkey, buf_n. cbn [buf_keys buf_a]. intros Hok.
  rewrite length_app. cbn [length].
  destruct (Nat.leb_spec (buf_a b) (length (buf_keys b)));
    [destruct (Nat.eqb_spec (buf_a b) 0)|]; lia.
Qed.

Lemma grown_extends b b' : grown b b' -> buf_ok b -> buf_extends b b'.
Proof.
  intros [l ->]. revert b. induction l as [|k l IH]; intros b Hok.
  - cbn [fold_left]. split; [assumption | split; [lia | reflexivity]].
  - cbn [fold_left]. destruct (addkey_ok b k Hok) as (_ & Hok' & Ha).
    destruct (IH (addkey b k) Hok') as (H1 & H2 & H3).
    split; [assumption | split; [lia|]].
    etrans; [|exact H3]. rewrite addkey_keys. now apply prefix_app_r.
Qed.

(** X17: [addkey] on a buffer whose keys fit its capacity writes the key
    at an index below the capacity it leaves, after the keys already
    there; the capacity is unchanged unless the buffer was full, in which
    case it becomes 16 (from 0) or doubles. *)
Theorem addkey_stays_within_capacity b k :
  buf_ok b ->
  (buf_n b < buf_a (addkey b k))%nat /\
  buf_keys (addkey b k) = buf_keys b ++ [k] /\
  buf_a (addkey b k) =
    (if decide (buf_n b = buf_a b)
     then (if decide (buf_a b = 0%nat) then 16 else 2 * buf_a b)
     else buf_a b)%nat.
Proof.
  intros Hok. split; [apply (addkey_ok b k Hok)|]. split; [apply addkey_keys|].
  unfold buf_ok in Hok. unfold addkey. cbn [buf_a].
  destruct (Nat.leb_spec (buf_a b) (buf_n b)).
  - rewrite decide_True by lia.
    destruct (Nat.eqb_spec (buf_a b) 0); [now rewrite decide_True|now rewrite decide_False].
  - now rewrite decide_False by lia.
Qed.

Lemma addkey_stays_within_capacity_witness :
  buf_ok (Buf [1; 2] 2) /\
  lt (buf_n (Buf [1; 2] 2)) (buf_a (addkey (Buf [1; 2] 2) 9)).
Proof.
  assert (Hok : buf_ok (Buf [1; 2] 2)) by (unfold buf_ok, buf_n; simpl; lia).
  split; [exact Hok|].
  exact (proj1 (addkey_stays_within_capacity (Buf [1; 2] 2) 9 Hok)).
Defined.

(** X18: each of the three queries, run on any tree with a buffer whose
    keys fit its capacity, leaves a buffer whose keys fit its capacity,
    whose capacity has not shrunk, and which still starts with the keys
    it held before. *)
Theorem queries_keep_buffer root tb tv b ref maxd :
  buf_ok b ->
  buf_extends b (query_linear b root ref maxd).1 /\
  buf_extends b (query_bk b tb ref maxd).1 /\
  buf_extends b (query_vp b tv ref maxd).1.
Proof.
  intros Hok. split; [|split].
  - apply grown_extends; [|assumption]. cbn [query_linear fst].
    apply grown_scan_keys.
  - apply grown_extends; [apply query_bk_grown | assumption].
  - apply grown_extends; [apply query_vp_grown | assumption].
Qed.

Lemma queries_keep_buffer_witness :
  buf_ok buf_init /\
  buf_extends buf_init
    (query_bk buf_init (BkTree 0 5 [BkLinear 2 1 [6]]) 4 1).1.
Proof.
  assert (Hok : buf_ok buf_init) by (unfold buf_ok, buf_n; simpl; lia).
  split; [exact Hok|].
  exact (proj1 (proj2 (queries_keep_buffer (Linear 0 []) (BkTree 0 5 [BkLinear 2 1 [6]])
                         (VpLinear 0 []) buf_init 4 1 Hok))).
Defined.

(** *** Arrays that fit one leaf *)



(** ** Printing keys *)

(** The static [keybuf] is a list of 33 character codes; ['0'] is 48 and
    ['.'] is 46. *)

(** One turn of the loop of [keystr]:
    [keybuf[31 - i] = '0' + (k & 1); k >>= 1;] *)
Definition keystr_step (st : list Z * bkey_t) (i : nat) : list Z * bkey_t :=
  let '(keybuf, k) := st in
  (<[(31 - i)%nat := 48 + Z.land k 1]> keybuf, Z.shiftr k 1).

(** [keystr]: the contents of [keybuf] after the call. *)
Definition keystr (keybuf : list Z) (k : bkey_t) : list Z :=
  <[32%nat := 0]> (fold_left keystr_step (seq 0 32) (keybuf, k)).1.

(** One turn of the loop of [keystr2]:
    [keybuf[31 - i] = (d & 1) ? ('0' + (k & 1)) : '.'; d >>= 1; k >>= 1;] *)
Definition keystr2_step (st : list Z * bkey_t * bkey_t) (i : nat)
  : list Z * bkey_t * bkey_t :=
  let '(keybuf, d, k) := st in
  (<[(31 - i)%nat := if negb (Z.land d 1 =? 0) then 48 + Z.land k 1 else 46]> keybuf,
   Z.shiftr d 1, Z.shiftr k 1).

Definition keystr2 (keybuf : list Z) (k ref : bkey_t) : list Z :=
  let d := Z.lxor ref k in
  <[32%nat := 0]> (fold_left keystr2_step (seq 0 32) (keybuf, d, k)).1.1.

(** The number a string of binary digits stands for. *)
Definition binary_value (s : list Z) : Z :=
  fold_left (fun v c => 2 * v + (c - 48)) s 0.

(** The character [keystr] prints for bit [i] of [k]. *)
Definition bit_char (k : Z) (i : nat) : Z := 48 + Z.b2z (Z.testbit k (Z.of_nat i)).

(** The character [keystr2] prints for bit [i] of [k], given [ref]. *)
Definition diff_char (k ref : Z) (i : nat) : Z :=
  if xorb (Z.testbit ref (Z.of_nat i)) (Z.testbit k (Z.of_nat i))
  then bit_char k i else 46.

Lemma land_1_shiftr x i :
  0 <= i -> Z.land (Z.shiftr x i) 1 = Z.b2z (Z.testbit x i).
Proof.
  intros Hi. change 1 with (Z.ones 1) at 1. rewrite Z.land_ones by lia.
  change (2 ^ 1) with 2. rewrite <- Z.bit0_mod, Z.shiftr_spec by lia.
  now rewrite Z.add_0_l.
Qed.

Lemma shiftr_S x (n : nat) :
  Z.shiftr (Z.shiftr x (Z.of_nat n)) 1 = Z.shiftr x (Z.of_nat (S n)).
Proof. rewrite Z.shiftr_shiftr by lia. f_equal. lia. Qed.

Lemma insert_take_last {A} (l rest : list A) i v :
  (i < length l)%nat ->
  <[i := v]> (take (S i) l ++ rest) = take i l ++ v :: rest.
Proof.
  intros Hi. destruct (lookup_lt_is_Some_2 l i Hi) as [x Hx].
  rewrite (take_S_r l i x Hx), <- app_assoc.
  rewrite insert_app_r_alt by (rewrite length_take; lia).
  rewrite length_take, Nat.min_l by lia. now rewrite Nat.sub_diag.
Qed.

(** What a loop that fills [keybuf] from index 31 downwards has written
    after [n] turns, [char i] being the character of turn [i]. *)
Definition filled (char : nat -> Z) (keybuf : list Z) (n : nat) : list Z :=
  take (32 - n) keybuf ++ reverse (char <$> seq 0 n) ++ drop 32 keybuf.

Lemma filled_0 char keybuf : filled char keybuf 0 = keybuf.
Proof. unfold filled. cbn [seq fmap list_fmap reverse]. apply take_drop. Qed.

Lemma filled_S char keybuf n :
  length keybuf = 33%nat -> (n < 32)%nat ->
  <[(31 - n)%nat := char n]> (filled char keybuf n) = filled char keybuf (S n).
Proof.
  intros Hlen Hn. unfold filled.
  replace (32 - n)%nat with (S (31 - n)) by lia.
  replace (32 - S n)%nat with (31 - n)%nat by lia.
  rewrite insert_take_last by lia.
  rewrite seq_S, fmap_app.
  change (char <$> [(0 + n)%nat]) with [char n].
  rewrite reverse_snoc. reflexivity.
Qed.

Lemma filled_32 char keybuf :
  length keybuf = 33%nat ->
  <[32%nat := 0]> (filled char keybuf 32) = reverse (char <$> seq 0 32) ++ [0].
Proof.
  intros Hlen. unfold filled. rewrite Nat.sub_diag, take_0, app_nil_l.
  rewrite insert_app_r_alt
    by (rewrite length_reverse, length_fmap, length_seq; lia).
  rewrite length_reverse, length_fmap, length_seq, Nat.sub_diag.
  f_equal. pose proof (length_drop keybuf 32) as Hd. rewrite Hlen in Hd.
  destruct (drop 32 keybuf) as [|c [|c' l]]; simpl in Hd; try lia. reflexivity.
Qed.

Lemma keystr_loop keybuf k n :
  length keybuf = 33%nat -> (n <= 32)%nat ->
  fold_left keystr_step (seq 0 n) (keybuf, k) =
  (filled (bit_char k) keybuf n, Z.shiftr k (Z.of_nat n)).
Proof.
  intros Hlen. induction n as [|n IH]; intros Hn.
  - cbn [seq fold_left]. now rewrite filled_0.
  - rewrite seq_S, fold_left_app, IH by lia. cbn [fold_left keystr_step Nat.add].
    rewrite land_1_shiftr by lia. fold (bit_char k n).
    rewrite filled_S by lia. now rewrite shiftr_S.
Qed.

Lemma keystr2_loop keybuf k ref n :
  length keybuf = 33%nat -> (n <= 32)%nat ->
  fold_left keystr2_step (seq 0 n) (keybuf, Z.lxor ref k, k) =
  (filled (diff_char k ref) keybuf n,
   Z.shiftr (Z.lxor ref k) (Z.of_nat n), Z.shiftr k (Z.of_nat n)).
Proof.
  intros Hlen. induction n as [|n IH]; intros Hn.
  - cbn [seq fold_left]. now rewrite filled_0.
  - rewrite seq_S, fold_left_app, IH by lia. cbn [fold_left keystr2_step Nat.add].
    rewrite !land_1_shiftr by lia. rewrite Z.lxor_spec.
    replace (if negb (Z.b2z (xorb (Z.testbit ref (Z.of_nat n))
                                  (Z.testbit k (Z.of_nat n))) =? 0)
             then 48 + Z.b2z (Z.testbit k (Z.of_nat n)) else 46)
      with (diff_char k ref n)
      by (unfold diff_char, bit_char; now destruct (xorb _ _)).
    rewrite filled_S by lia. now rewrite !shiftr_S.
Qed.

Lemma binary_value_reverse_cons c l :
  binary_value (reverse (c :: l)) = 2 * binary_value (reverse l) + (c - 48).
Proof. unfold binary_value. now rewrite reverse_cons, fold_left_app. Qed.

Lemma binary_value_bits k n : forall s,
  binary_value (reverse (bit_char k <$> seq s n)) =
  Z.shiftr k (Z.of_nat s) mod 2 ^ Z.of_nat n.
Proof.
  induction n as [|n IH]; intros s.
  - cbn [seq fmap list_fmap]. change (2 ^ Z.of_nat 0) with 1.
    now rewrite Z.mod_1_r.
  - cbn [seq]. rewrite fmap_cons, binary_value_reverse_cons, IH.
    unfold bit_char. rewrite <- shiftr_S, <- land_1_shiftr by lia.
    generalize (Z.shiftr k (Z.of_nat s)). intros x.
    change 1 with (Z.ones 1) at 2. rewrite Z.land_ones by lia.
    change (2 ^ 1) with 2. rewrite Z.shiftr_div_pow2 by lia.
    change (2 ^ 1) with 2.
    rewrite Nat2Z.inj_succ, Z.pow_succ_r by lia.
    rewrite (Z.rem_mul_r x 2 (2 ^ Z.of_nat n)) by lia. lia.
Qed.

(** X20: [keystr] leaves in [keybuf], whatever it held before, the 32
    binary digits of the key, most significant first, and a terminating
    zero. *)
Theorem keystr_writes_binary_digits keybuf k :
  length keybuf = 33%nat ->
  keystr keybuf k =
  reverse ((fun i => 48 + Z.b2z (Z.testbit k (Z.of_nat i))) <$> seq 0 32) ++ [0].
Proof.
  intros Hlen. unfold keystr. rewrite keystr_loop by lia. cbn [fst].
  now rewrite filled_32.
Qed.

Lemma keystr_writes_binary_digits_witness :
  length (replicate 33 0) = 33%nat /\
  keystr (replicate 33 0) 5 =
  reverse ((fun i => 48 + Z.b2z (Z.testbit 5 (Z.of_nat i))) <$> seq 0 32) ++ [0].
Proof.
  assert (Hlen : length (replicate 33 0) = 33%nat) by reflexivity.
  split; [exact Hlen|].
  exact (keystr_writes_binary_digits (replicate 33 0) 5 Hlen).
Defined.

(** X21: reading the 32 characters [keystr] prints for a 32-bit key as a
    binary number gives the key back; different keys print differently. *)
Theorem keystr_round_trip keybuf k :
  length keybuf = 33%nat -> bkey_ok k ->
  binary_value (take 32 (keystr keybuf k)) = k.
Proof.
  intros Hlen Hk. unfold keystr. rewrite keystr_loop by lia. cbn [fst].
  rewrite filled_32 by assumption.
  rewrite take_app_length'
    by now rewrite length_reverse, length_fmap, length_seq.
  rewrite binary_value_bits. rewrite Z.shiftr_0_r.
  apply Z.mod_small. exact Hk.
Qed.

Lemma keystr_round_trip_witness :
  (length (replicate 33 7) = 33%nat /\ bkey_ok 2863311530) /\
  binary_value (take 32 (keystr (replicate 33 7) 2863311530)) = 2863311530.
Proof.
  assert (Hlen : length (replicate 33 7) = 33%nat) by reflexivity.
  assert (Hk : bkey_ok 2863311530) by (unfold bkey_ok, wB; lia).
  split; [split; [exact Hlen | exact Hk]|].
  exact (keystr_round_trip (replicate 33 7) 2863311530 Hlen Hk).
Defined.

Lemma diff_chars_count k ref l :
  length (filter (fun c => c <> 46) (diff_char k ref <$> l)) =
  length (List.filter
            (fun i => xorb (Z.testbit ref (Z.of_nat i)) (Z.testbit k (Z.of_nat i))) l).
Proof.
  induction l as [|i l IH]; [reflexivity|].
  rewrite fmap_cons, (filter_cons (fun c => c <> 46)). cbn [List.filter].
  assert (H : diff_char k ref i <> 46 <->
              xorb (Z.testbit ref (Z.of_nat i)) (Z.testbit k (Z.of_nat i)) = true).
  { unfold diff_char, bit_char.
    destruct (xorb _ _); destruct (Z.testbit k (Z.of_nat i)); simpl; split;
      intros; congruence || lia. }
  destruct (xorb (Z.testbit ref (Z.of_nat i)) (Z.testbit k (Z.of_nat i))).
  - rewrite decide_True by now apply H. cbn [length]. now rewrite IH.
  - rewrite decide_False by (rewrite H; discriminate). exact IH.
Qed.

(** X22: [keystr2] leaves in [keybuf], most significant bit first, the
    digit of the key at every bit where the key differs from [ref] and a
    dot at every bit where they agree, then a terminating zero; for 32-bit
    values the number of characters other than the dot is the distance
    between [ref] and the key. *)
Theorem keystr2_marks_differing_bits keybuf k ref :
  length keybuf = 33%nat -> bkey_ok k -> bkey_ok ref ->
  keystr2 keybuf k ref =
    reverse ((fun i =>
                if xorb (Z.testbit ref (Z.of_nat i)) (Z.testbit k (Z.of_nat i))
                then 48 + Z.b2z (Z.testbit k (Z.of_nat i)) else 46) <$> seq 0 32)
    ++ [0] /\
  Z.of_nat (length (filter (fun c => c <> 46) (take 32 (keystr2 keybuf k ref)))) =
    distance ref k.
Proof.
  intros Hlen Hk Hr.
  assert (E : keystr2 keybuf k ref = reverse (diff_char k ref <$> seq 0 32) ++ [0]).
  { unfold keystr2. cbv zeta. rewrite keystr2_loop by lia. cbn [fst].
    now rewrite filled_32. }
  split; [exact E|]. rewrite E.
  rewrite take_app_length'
    by now rewrite length_reverse, length_fmap, length_seq.
  rewrite (filter_reverse (fun c => c <> 46)), length_reverse, diff_chars_count.
  rewrite (distance_popcount ref k Hr Hk), <- hamming_popcount.
  unfold hamming. reflexivity.
Qed.

Lemma keystr2_marks_differing_bits_witness :
  (length (replicate 33 0) = 33%nat /\ bkey_ok 6 /\ bkey_ok 5) /\
  Z.of_nat (length (filter (fun c => c <> 46)
                      (take 32 (keystr2 (replicate 33 0) 6 5)))) = distance 5 6.
Proof.
  assert (Hlen : length (replicate 33 0) = 33%nat) by reflexivity.
  assert (Hk : bkey_ok 6) by (unfold bkey_ok, wB; lia).
  assert (Hr : bkey_ok 5) by (unfold bkey_ok, wB; lia).
  split; [split; [exact Hlen | split; [exact Hk | exact Hr]]|].
  exact (proj2 (keystr2_marks_differing_bits (replicate 33 0) 6 5 Hlen Hk Hr)).
Defined.

(** ** The key generator *)

(** [static uint32_t rand_x0, rand_x1, rand_c;] *)
Record rand_state : Type :=
  Rand { rand_x0 : Z; rand_x1 : Z; rand_c : Z }.

(** [#define RAND_A 4284966893U] *)
Definition RAND_A : Z := 4284966893.

(** [seedrand], [t] being the value [time] stores; the assignment to the
    32-bit [rand_x0] keeps its low 32 bits. *)
Definition seedrand (t : Z) : rand_state :=
  Rand (t mod wB) 0x038acaf3 0xa2cc5886.

(** [irand]: the returned value and the new state.  [y] is a [uint64_t];
    the assignments to the 32-bit variables and the return keep its low
    32 bits. *)
Definition irand (s : rand_state) : Z * rand_state :=
  let y := (rand_x0 s * RAND_A + rand_c s) mod 2 ^ 64 in
  (y mod wB, Rand (rand_x1 s) (y mod wB) (Z.shiftr y 32 mod wB)).

(** [for (i = 0; i < nkeys; ++i) keys[i] = irand();] *)
Fixpoint gen_keys (nkeys : nat) (s : rand_state) : list bkey_t * rand_state :=
  match nkeys with
  | O => ([], s)
  | S n =>
      let '(k, s') := irand s in
      let '(keys, s'') := gen_keys n s' in
      (k :: keys, s'')
  end.


(** The three state variables hold 32-bit values, and the carry is below
    the multiplier. *)
Definition rand_ok (s : rand_state) : Prop :=
  bkey_ok (rand_x0 s) /\ bkey_ok (rand_x1 s) /\ 0 <= rand_c s < RAND_A.

Lemma seedrand_ok t : rand_ok (seedrand t).
Proof.
  unfold rand_ok, seedrand, bkey_ok, RAND_A, wB. cbn [rand_x0 rand_x1 rand_c].
  pose proof (Z.mod_pos_bound t (2 ^ 32) ltac:(lia)). lia.
Qed.

Lemma irand_spec s :
  rand_ok s ->
  rand_x0 s * RAND_A + rand_c s = (irand s).1 + 2 ^ 32 * rand_c (irand s).2 /\
  bkey_ok (irand s).1 /\ rand_ok (irand s).2 /\
  rand_x0 (irand s).2 = rand_x1 s /\ rand_x1 (irand s).2 = (irand s).1.
Proof.
  unfold rand_ok, bkey_ok, irand, RAND_A, wB.
  destruct s as [x0 x1 c]. cbn [rand_x0 rand_x1 rand_c fst snd].
  intros (H0 & H1 & Hc).
  assert (Hy : 0 <= x0 * 4284966893 + c < 2 ^ 32 * 4284966893) by nia.
  rewrite (Z.mod_small (x0 * 4284966893 + c) (2 ^ 64)) by lia.
  generalize dependent (x0 * 4284966893 + c). intros y Hy.
  rewrite Z.shiftr_div_pow2 by lia.
  pose proof (Z.div_mod y (2 ^ 32) ltac:(lia)) as Hdm.
  pose proof (Z.mod_pos_bound y (2 ^ 32) ltac:(lia)) as Hm.
  assert (Hq : 0 <= y / 2 ^ 32 < 4284966893).
  { split; [apply Z.div_pos; lia | apply Z.div_lt_upper_bound; lia]. }
  rewrite (Z.mod_small (y / 2 ^ 32)) by lia.
  repeat split; lia.
Qed.

Lemma gen_keys_spec nkeys : forall s,
  rand_ok s ->
  length (gen_keys nkeys s).1 = nkeys /\
  Forall bkey_ok (gen_keys nkeys s).1 /\
  rand_ok (gen_keys nkeys s).2.
Proof.
  induction nkeys as [|n IH]; intros s Hs.
  - cbn [gen_keys fst snd length]. split; [reflexivity|]. split; [constructor | exact Hs].
  - cbn [gen_keys]. destruct (irand_spec s Hs) as (_ & Hk & Hs' & _).
    destruct (irand s) as [k s']. cbn [fst snd] in Hk, Hs'.
    destruct (IH s' Hs') as (Hlen & Hall & Hs'').
    destruct (gen_keys n s') as [keys s'']. cbn [fst snd length] in *.
    split; [now rewrite Hlen|]. split; [now constructor | exact Hs''].
Qed.

(** X23: one call of [irand] on 32-bit state with the carry below
    [RAND_A] loses nothing: the 64-bit sum of [rand_c] and the product
    of [rand_x0] and [RAND_A] does not wrap and splits exactly into the
    returned low word and the
    new carry; the returned value is a 32-bit key, it becomes [rand_x1],
    the old [rand_x1] becomes [rand_x0], and the new carry is again below
    [RAND_A]. *)
Theorem irand_multiply_with_carry s :
  rand_ok s ->
  rand_x0 s * RAND_A + rand_c s = (irand s).1 + 2 ^ 32 * rand_c (irand s).2 /\
  bkey_ok (irand s).1 /\ rand_ok (irand s).2 /\
  rand_x0 (irand s).2 = rand_x1 s /\ rand_x1 (irand s).2 = (irand s).1.
Proof. apply irand_spec. Qed.

Lemma irand_multiply_with_carry_witness :
  rand_ok (Rand 1 2 3) /\
  rand_x0 (Rand 1 2 3) * RAND_A + rand_c (Rand 1 2 3) =
    (irand (Rand 1 2 3)).1 + 2 ^ 32 * rand_c (irand (Rand 1 2 3)).2.
Proof.
  assert (Hs : rand_ok (Rand 1 2 3)).
  { unfold rand_ok, bkey_ok, RAND_A, wB. cbn [rand_x0 rand_x1 rand_c]. lia. }
  split; [exact Hs|].
  exact (proj1 (irand_multiply_with_carry (Rand 1 2 3) Hs)).
Defined.

(** X24: whatever the clock value, the array [main] fills after
    [seedrand] holds [nkeys] 32-bit keys, and [mktree_bk] builds a tree
    from it for every positive [nkeys] and every [max_linear]. *)
Theorem generated_keys_build_bk t nkeys max_linear :
  (0 < nkeys)%nat ->
  length (gen_keys nkeys (seedrand t)).1 = nkeys /\
  Forall bkey_ok (gen_keys nkeys (seedrand t)).1 /\
  exists tree, mktree_bk (gen_keys nkeys (seedrand t)).1 max_linear = Done tree.
Proof.
  intros Hn.
  destruct (gen_keys_spec nkeys (seedrand t) (seedrand_ok t)) as (Hlen & Hall & _).
  split; [exact Hlen|]. split; [exact Hall|].
  assert (Hne : (gen_keys nkeys (seedrand t)).1 <> []).
  { intros E. rewrite E in Hlen. simpl in Hlen. lia. }
  destruct (mktree_bk_built _ max_linear Hall Hne) as (tree & Ht & _).
  now exists tree.
Qed.

Lemma generated_keys_build_bk_witness :
  (0 < 3)%nat /\ length (gen_keys 3 (seedrand 1)).1 = 3%nat.
Proof.
  assert (Hn : (0 < 3)%nat) by lia.
  split; [exact Hn|].
  exact (proj1 (generated_keys_build_bk 1 3 1 Hn)).
Defined.




